(** * hexit: the playback engine of [player.hpp]

    A shallow embedding of [sgr::player::tempo] (the tempo mapper) and of
    [sgr::player::player] (piano roll, scheduler and mixer), followed by the
    properties of the engine.

    The engine computes on C++ [double].  The embedding is written once over
    a class [Number] of the operations the code uses and is run at two
    instances: exact rationals [Q], on which the general theorems are
    proved, and IEEE-754 binary64 ([PrimFloat.float]), on which the concrete
    scenarios are replayed bit for bit. *)

From Stdlib Require Import QArith Qabs Lqa Lia List String Bool Permutation.
From Stdlib Require Import PrimFloat Sorted.
Import ListNotations.

Set Implicit Arguments.

(** ** Numbers *)

(** The arithmetic of [double] that the engine uses: the literals [0] and
    [1.0], the four operations, unary minus, [<=] and [<]. *)
Class Number (num : Type) : Type := {
  zero : num;
  one : num;
  add : num -> num -> num;
  sub : num -> num -> num;
  mul : num -> num -> num;
  div : num -> num -> num;
  opp : num -> num;
  leb : num -> num -> bool;
  ltb : num -> num -> bool
}.

Declare Scope num_scope.
Delimit Scope num_scope with num.
Infix "+" := add : num_scope.
Infix "-" := sub : num_scope.
Infix "*" := mul : num_scope.
Infix "/" := div : num_scope.
Notation "- x" := (opp x) : num_scope.
Infix "<=?" := leb : num_scope.
Infix "<?" := ltb : num_scope.

(** [std::max(a, b)] is [(a < b) ? b : a]. *)
Definition max {num} `{Number num} (a b : num) : num :=
  if (a <? b)%num then b else a.

(** Exact rationals. *)
#[export] Instance Number_Q : Number Q := {
  zero := 0%Q;
  one := 1%Q;
  add := Qplus;
  sub := Qminus;
  mul := Qmult;
  div := Qdiv;
  opp := Qopp;
  leb := Qle_bool;
  ltb := fun a b => negb (Qle_bool b a)
}.

(** IEEE-754 binary64, round to nearest even: the C++ [double]. *)
#[export] Instance Number_double : Number float := {
  zero := 0%float;
  one := 1%float;
  add := PrimFloat.add;
  sub := PrimFloat.sub;
  mul := PrimFloat.mul;
  div := PrimFloat.div;
  opp := PrimFloat.opp;
  leb := PrimFloat.leb;
  ltb := PrimFloat.ltb
}.

(** ** Outcomes of a member function *)

(** [err::end_of_song] carries a reason; [err::invalid_beat] carries
    [beat_val] and a reason. *)
Inductive exn (num : Type) : Type :=
| end_of_song (reason : string)
| invalid_beat (beat_val : num) (reason : string).
Arguments end_of_song {num} reason.
Arguments invalid_beat {num} beat_val reason.

(** A call on an object of state [S] returns a value, throws an exception
    (the object keeps the state the call left behind), stops the program on
    a failed [assert], or has no defined behaviour. *)
Inductive outcome (num S A : Type) : Type :=
| Returned (a : A) (s : S)
| Thrown (e : exn num) (s : S)
| Aborted (assertion : string)
| Undefined (what : string).
Arguments Returned {num S A} a s.
Arguments Thrown {num S A} e s.
Arguments Aborted {num S A} assertion.
Arguments Undefined {num S A} what.

Definition M (num S A : Type) : Type := S -> outcome num S A.

Definition ret {num S A} (a : A) : M num S A := fun s => Returned a s.

Definition bind {num S A B} (m : M num S A) (k : A -> M num S B) : M num S B :=
  fun s =>
    match m s with
    | Returned a s' => k a s'
    | Thrown e s' => Thrown e s'
    | Aborted msg => Aborted msg
    | Undefined what => Undefined what
    end.

Definition throw {num S A} (e : exn num) : M num S A := fun s => Thrown e s.

Definition modify {num S} (f : S -> S) : M num S unit :=
  fun s => Returned tt (f s).

(** [assert(c && msg)]. *)
Definition assert {num S} (c : bool) (msg : string) : M num S unit :=
  fun s => if c then Returned tt s else Aborted msg.

Declare Scope monad_scope.
Delimit Scope monad_scope with monad.
Notation "x <- m ;; k" := (bind m (fun x => k))
  (at level 61, m at next level, right associativity) : monad_scope.
Notation "m ;; k" := (bind m (fun _ => k))
  (at level 61, right associativity) : monad_scope.

(** ** [sgr::player::timing]: cursors and periods *)

Module timing.

(** Modelled from the spec: [player_timing.hpp] is not among the sources.
    A cursor is the 4-tuple [(t, dt, beat, dbeat)]. *)
Record time (num : Type) : Type := mk_time {
  t : num;
  dt : num;
  beat : num;
  dbeat : num
}.

(** Modelled from the spec: the constructor [time(t, beat)] that
    [instruction] uses for the two ends of its period. *)
Definition time2 {num} `{Number num} (t0 beat0 : num) : time num :=
  mk_time t0 zero beat0 zero.

(** Modelled from the spec: a period is [{ start, end }], both cursors. *)
Record period (num : Type) : Type := mk_period {
  start : time num;
  end_ : time num
}.

End timing.

(** ** Engine-side descriptors *)

Module sample.

(** Modelled from the spec: [player_sample.hpp] is not among the sources.
    A sample is a stereo frame [{ left, right }]. *)
Record sample (num : Type) : Type := mk_sample {
  left : num;
  right : num
}.

(** Modelled from the spec: [operator+=] of samples, channel by channel. *)
Definition plus {num} `{Number num} (a b : sample num) : sample num :=
  mk_sample (left a + left b)%num (right a + right b)%num.

End sample.

(** [player_volume.hpp], [player_pitch.hpp] and [player_instrument.hpp]
    are not among the sources.  Each descriptor is the evaluation function
    the mixer calls on it. *)
Module volume.

(** Modelled from the spec: the stereo volume [{ left, right }] that
    [get_volume] returns. *)
Record stereo (num : Type) : Type := mk_stereo {
  left : num;
  right : num
}.

(** Modelled from the spec: [get_volume(period, now)]. *)
Record volume (num : Type) : Type := mk_volume {
  get_volume : timing.period num -> timing.time num -> stereo num
}.

End volume.

Module pitch.

(** Modelled from the spec: [get_pitch(period, now)]. *)
Record pitch (num : Type) : Type := mk_pitch {
  get_pitch : timing.period num -> timing.time num -> num
}.

End pitch.

Module instrument.

(** Modelled from the spec: [get_sample(period, now, volume, pitch)]. *)
Record instrument (num : Type) : Type := mk_instrument {
  get_sample : timing.period num -> timing.time num ->
               volume.stereo num -> num -> sample.sample num
}.

End instrument.

(** ** [sgr::notation]: the score *)

Module notation.

Module timing.

(** Modelled from the spec: [notation.hpp] is not among the sources.  A
    timing segment has a beat count [duration], the seconds it covers
    [full_time()], and the two mappings between local beats and local
    seconds. *)
Record timing (num : Type) : Type := mk_timing {
  duration : num;
  full_time : num;
  beat_to_time : num -> num;
  time_to_beat : num -> num
}.

(** Modelled from the spec: a constant tempo maps beats to seconds
    linearly, [duration] beats over [full_time] seconds. *)
Definition constant {num} `{Number num} (beats seconds : num) : timing num :=
  mk_timing beats seconds
    (fun b => b * seconds / beats)%num
    (fun t => t * beats / seconds)%num.

End timing.

Module beats.

(** Modelled from the spec: the beat window [{ start, duration }] of a note. *)
Record beats (num : Type) : Type := mk_beats {
  start : num;
  duration : num
}.

End beats.

(** Modelled from the spec: a note bundles its three descriptors and its
    beat window; the factories of the engine resolve a score-side
    descriptor to the engine-side one, which the note carries here. *)
Record note (num : Type) : Type := mk_note {
  pitch : pitch.pitch num;
  instrument : instrument.instrument num;
  volume : volume.volume num;
  duration : beats.beats num
}.

(** Modelled from the spec: a song is its ordered timing segments and its
    notes. *)
Record song (num : Type) : Type := mk_song {
  timings : list (timing.timing num);
  notes : list (note num)
}.

End notation.

(** ** [struct instruction] *)

Module instruction.

Section Instruction.
Context {num : Type} `{Number num}.

Record instruction : Type := mk_instruction {
  pitch : pitch.pitch num;
  instrument : instrument.instrument num;
  volume : volume.volume num;
  bounds : timing.period num
}.

(** [instruction(n, start_t, end_t)]. *)
Definition new (n : notation.note num) (start_t end_t : num) : instruction :=
  let d := notation.duration n in
  mk_instruction
    (notation.pitch n)
    (notation.instrument n)
    (notation.volume n)
    (timing.mk_period
       (timing.time2 start_t (notation.beats.start d))
       (timing.time2 end_t
          (notation.beats.start d + notation.beats.duration d)%num)).

End Instruction.
Arguments instruction num : clear implicits.

End instruction.

(** ** [struct tempo] *)

Module tempo.

Section Tempo.
Context {num : Type} `{Number num}.

Local Open Scope num_scope.
Local Open Scope monad_scope.

Record tempo : Type := mk_tempo {
  timings : list (notation.timing.timing num);
  now : timing.time num;
  global : timing.time num
}.

(** [tempo()]. *)
Definition new : tempo :=
  mk_tempo [] (timing.mk_time zero zero zero zero)
              (timing.mk_time zero zero zero zero).

(** [add_timing]: [timings.push_back(timing)]. *)
Definition add_timing (seg : notation.timing.timing num) (s : tempo) : tempo :=
  mk_tempo (timings s ++ [seg]) (now s) (global s).

(** The tail of [advance], from [now.beat = t->time_to_beat(now.t)] on:
    [t] is the segment in front of the queue [q], [now1] and [global1] the
    cursors after the time has been added, [old] the snapshot. *)
Definition settle (t : notation.timing.timing num)
    (q : list (notation.timing.timing num))
    (now1 old global1 : timing.time num) : tempo :=
  let now_beat := notation.timing.time_to_beat t (timing.t now1) in
  let now_dbeat := now_beat - timing.beat old in
  mk_tempo q
    (timing.mk_time (timing.t now1) (timing.dt now1) now_beat now_dbeat)
    (timing.mk_time (timing.t global1) (timing.dt global1)
       (timing.beat global1 + now_dbeat) now_dbeat).

(** [void advance(double dt)].  [timings.front()] on an empty list has no
    defined behaviour. *)
Definition advance (dt : num) : M num tempo unit :=
  assert (zero <=? dt) "must be greater than zero!" ;;
  fun s =>
    let old := now s in
    let global1 :=
      timing.mk_time (timing.t (global s) + dt) dt
        (timing.beat (global s)) (timing.dbeat (global s)) in
    let now1 :=
      timing.mk_time (timing.t (now s) + dt) dt
        (timing.beat (now s)) (timing.dbeat (now s)) in
    match timings s with
    | [] => Undefined "front() of an empty std::list"
    | t :: rest =>
        if notation.timing.full_time t <=? timing.t now1 then
          let rest_of_t := notation.timing.full_time t - timing.t old in
          let rest_of_b := notation.timing.duration t - timing.beat old in
          let now2 :=
            timing.mk_time (dt - rest_of_t) (timing.dt now1)
              (timing.beat now1) (timing.dbeat now1) in
          let old' :=
            timing.mk_time (timing.t old) (timing.dt old)
              (- rest_of_b) (timing.dbeat old) in
          match rest with
          | [] =>
              Thrown (end_of_song "Ran out of timing specs!")
                (mk_tempo [] now2 global1)
          | t' :: _ => Returned tt (settle t' rest now2 old' global1)
          end
        else Returned tt (settle t (t :: rest) now1 old global1)
    end.

(** The loop of [beat_to_time] over the queue: [inl] is the value
    returned from inside the loop, [inr] the value of the local [beat] when
    the loop runs off the end. *)
Fixpoint walk (l : list (notation.timing.timing num)) (t beat : num)
  : num + num :=
  match l with
  | [] => inr beat
  | seg :: l' =>
      if beat <=? notation.timing.duration seg
      then inl (t + notation.timing.beat_to_time seg beat)
      else walk l' (t + notation.timing.full_time seg)
                   (beat - notation.timing.duration seg)
  end.

(** [double beat_to_time(double beat)]. *)
Definition beat_to_time (beat : num) : M num tempo num :=
  fun s =>
    if beat <? timing.beat (global s)
    then throw (invalid_beat beat "Beat in the past.") s
    else
      let t := timing.t (global s) in
      let beat := beat - (timing.beat (global s) - timing.beat (now s)) in
      match walk (timings s) t beat with
      | inl r => ret r s
      | inr beat => throw (invalid_beat beat "Beat past end of song.") s
      end.

(** [const timing::time& get()]. *)
Definition get : M num tempo (timing.time num) := fun s => ret (global s) s.

End Tempo.
Arguments tempo num : clear implicits.

End tempo.

(** ** [class player] *)

Module player.

Section Player.
Context {num : Type} `{Number num}.

Local Open Scope num_scope.
Local Open Scope monad_scope.

Record player : Type := mk_player {
  now : tempo.tempo num;
  roll : list (instruction.instruction num);
  active : list (instruction.instruction num);
  sound_ : sample.sample num
}.

Definition start_beat (i : instruction.instruction num) : num :=
  timing.beat (timing.start (instruction.bounds i)).

Definition end_beat (i : instruction.instruction num) : num :=
  timing.beat (timing.end_ (instruction.bounds i)).

(** [ptrcmp]: [a.bounds.start.beat > b.bounds.start.beat]. *)
Definition ptrcmp (a b : instruction.instruction num) : bool :=
  start_beat b <? start_beat a.

(** [piano_roll] is a [std::priority_queue] ordered by [ptrcmp]; the roll
    is kept as the bag of its elements.  [take_top] splits off an element
    that [ptrcmp] puts below no other one (among several such, which one
    the standard library hands out is not specified; the first in the list
    is taken). *)
Fixpoint take_top (r : list (instruction.instruction num))
  : option (instruction.instruction num * list (instruction.instruction num)) :=
  match r with
  | [] => None
  | x :: r' =>
      match take_top r' with
      | None => Some (x, [])
      | Some (y, r'') =>
          if ptrcmp x y then Some (y, x :: r'') else Some (x, r')
      end
  end.

Definition top (r : list (instruction.instruction num))
  : option (instruction.instruction num) :=
  option_map fst (take_top r).

Definition pop (r : list (instruction.instruction num))
  : list (instruction.instruction num) :=
  match take_top r with
  | Some (_, r') => r'
  | None => r
  end.

Definition push (x : instruction.instruction num)
    (r : list (instruction.instruction num))
  : list (instruction.instruction num) :=
  r ++ [x].

(** A call on the member [now]. *)
Definition on_now {A} (m : M num (tempo.tempo num) A) : M num player A :=
  fun p =>
    match m (now p) with
    | Returned a s => Returned a (mk_player s (roll p) (active p) (sound_ p))
    | Thrown e s => Thrown e (mk_player s (roll p) (active p) (sound_ p))
    | Aborted msg => Aborted msg
    | Undefined what => Undefined what
    end.

(** The loop of the constructor over [song.notes()]. *)
Fixpoint push_notes (notes : list (notation.note num)) : M num player unit :=
  match notes with
  | [] => ret tt
  | instr :: notes' =>
      let d := notation.duration instr in
      start_t <- on_now (tempo.beat_to_time (notation.beats.start d)) ;;
      end_t <- on_now (tempo.beat_to_time
                 (notation.beats.start d + notation.beats.duration d)) ;;
      modify (fun p =>
        mk_player (now p)
          (push (instruction.new instr start_t end_t) (roll p))
          (active p) (sound_ p)) ;;
      push_notes notes'
  end.

(** [player(notation::song song)].  The members are initialised first
    ([sample()] is the silent frame), then the body runs on them. *)
Definition new (song : notation.song num) : outcome num player unit :=
  (modify (fun p =>
     mk_player (fold_left (fun s seg => tempo.add_timing seg s)
                  (notation.timings song) (now p))
       (roll p) (active p) (sound_ p)) ;;
   push_notes (notation.notes song))
  (mk_player tempo.new [] [] (sample.mk_sample zero zero)).

(** "add all instruments that have to sound at this t". *)
Definition promote (t : timing.time num) (p : player) : player :=
  match top (roll p) with
  | Some top =>
      if start_beat top <=? timing.beat t
      then mk_player (now p) (pop (roll p)) (active p ++ [top]) (sound_ p)
      else p
  | None => p
  end.

(** "remove all instructions that are to be removed": the erase loop. *)
Fixpoint erase_ended (t : timing.time num)
    (l : list (instruction.instruction num))
  : list (instruction.instruction num) :=
  match l with
  | [] => []
  | p :: l' =>
      if end_beat p <? timing.beat t
      then erase_ended t l'
      else p :: erase_ended t l'
  end.

Definition retire (t : timing.time num) (p : player) : player :=
  mk_player (now p) (roll p) (erase_ended t (active p)) (sound_ p).

(** One turn of the loop of "compute sound". *)
Definition mix_step (t : timing.time num)
    (acc : sample.sample num * num) (p : instruction.instruction num)
  : sample.sample num * num :=
  let (s, normalize) := acc in
  let b := instruction.bounds p in
  let vol := volume.get_volume (instruction.volume p) b t in
  let pitch := pitch.get_pitch (instruction.pitch p) b t in
  (sample.plus s
     (instrument.get_sample (instruction.instrument p) b t vol pitch),
   normalize + max (volume.right vol) (volume.left vol)).

Definition mix (t : timing.time num)
    (l : list (instruction.instruction num)) : sample.sample num :=
  let (s, normalize) :=
    fold_left (mix_step t) l (sample.mk_sample zero zero, zero) in
  let normalize := max normalize one in
  sample.mk_sample (sample.left s / normalize) (sample.right s / normalize).

Definition compute_sound (t : timing.time num) (p : player) : player :=
  mk_player (now p) (roll p) (active p) (mix t (active p)).

(** [void advance(double dt)]. *)
Definition advance (dt : num) : M num player unit :=
  assert (zero <=? dt) "Not meant to go backwards!" ;;
  on_now (tempo.advance dt) ;;
  t <- on_now tempo.get ;;
  modify (promote t) ;;
  modify (retire t) ;;
  modify (compute_sound t).

(** [sample sound()]. *)
Definition sound : M num player (sample.sample num) :=
  fun p => ret (sound_ p) p.

End Player.
Arguments player num : clear implicits.

End player.

(** ** Scenarios *)

Module scenario.

Section Scenario.
Context {num : Type} `{Number num}.

Local Open Scope monad_scope.

(** The caller's loop, [n] turns of [pl.advance(dt); pl.sound()]: the
    samples read, in order. *)
Fixpoint ticks (n : nat) (dt : num)
  : M num (player.player num) (list (sample.sample num)) :=
  match n with
  | O => ret []
  | S n' =>
      player.advance dt ;;
      s <- player.sound ;;
      rest <- ticks n' dt ;;
      ret (s :: rest)
  end.

(** A song of one constant-tempo segment and no notes. *)
Definition empty_song (beats seconds : num) : notation.song num :=
  notation.mk_song [notation.timing.constant beats seconds] [].

(** A tempo mapper in its construction state holding [segs]. *)
Definition tempo_of (segs : list (notation.timing.timing num))
  : tempo.tempo num :=
  fold_left (fun s seg => tempo.add_timing seg s) segs tempo.new.

(** The player as the constructor leaves it, when it returns. *)
Definition built (song : notation.song num) : option (player.player num) :=
  match player.new song with
  | Returned _ p => Some p
  | _ => None
  end.

End Scenario.

(** The [double] nearest to 0.1, the tick of the scenarios. *)
Definition tenth : float := 0x1.999999999999ap-4%float.

End scenario.

(** ** Vocabulary of the properties, over exact rationals *)

Module spec.

Local Open Scope Q_scope.

(** [f] is monotonically increasing on [[0, hi]]. *)
Definition increasing_on (f : Q -> Q) (hi : Q) : Prop :=
  forall a b, 0 <= a -> b <= hi ->
    (a <= b -> f a <= f b) /\ (a < b -> f a < f b).

(** [time_to_beat] of a segment is increasing on [[0, full_time()]] and
    exact at both ends. *)
Definition time_to_beat_ok (seg : notation.timing.timing Q) : Prop :=
  0 <= notation.timing.full_time seg /\
  increasing_on (notation.timing.time_to_beat seg)
                (notation.timing.full_time seg) /\
  notation.timing.time_to_beat seg 0 == 0 /\
  notation.timing.time_to_beat seg (notation.timing.full_time seg)
    == notation.timing.duration seg.

(** [beat_to_time] of a segment is increasing on [[0, duration]] and exact
    at both ends. *)
Definition beat_to_time_ok (seg : notation.timing.timing Q) : Prop :=
  0 <= notation.timing.duration seg /\
  increasing_on (notation.timing.beat_to_time seg)
                (notation.timing.duration seg) /\
  notation.timing.beat_to_time seg 0 == 0 /\
  notation.timing.beat_to_time seg (notation.timing.duration seg)
    == notation.timing.full_time seg.

(** [advance(dt)] crosses at most one segment boundary: if it leaves the
    front segment, the time carried over stays short of the end of the next
    one. *)
Definition single_crossing (dt : Q) (s : tempo.tempo Q) : Prop :=
  match tempo.timings s with
  | t :: t' :: _ =>
      notation.timing.full_time t <= timing.t (tempo.now s) + dt ->
      dt - (notation.timing.full_time t - timing.t (tempo.now s))
        < notation.timing.full_time t'
  | _ => True
  end.

(** The local cursor lies inside the front segment and its beat is the
    front segment's [time_to_beat] of its time. *)
Definition cursor_ok (s : tempo.tempo Q) : Prop :=
  Forall time_to_beat_ok (tempo.timings s) /\
  match tempo.timings s with
  | [] => True
  | t :: _ =>
      0 <= timing.t (tempo.now s) /\
      timing.t (tempo.now s) <= notation.timing.full_time t /\
      timing.beat (tempo.now s)
        == notation.timing.time_to_beat t (timing.t (tempo.now s))
  end.

(** The sample an instruction contributes at cursor [t] stays, channel by
    channel, within the larger of the two volumes evaluated at [t]. *)
Definition sample_within (t : timing.time Q)
    (p : instruction.instruction Q) : Prop :=
  let b := instruction.bounds p in
  let vol := volume.get_volume (instruction.volume p) b t in
  let pitch := pitch.get_pitch (instruction.pitch p) b t in
  let s := instrument.get_sample (instruction.instrument p) b t vol pitch in
  Qabs (sample.left s) <= max (volume.left vol) (volume.right vol) /\
  Qabs (sample.right s) <= max (volume.left vol) (volume.right vol).

(** An instruction stays in the active list at global beat [g]. *)
Definition stays (g : Q) (i : instruction.instruction Q) : bool :=
  negb (ltb (player.end_beat i) g).

(** The instruction a note becomes when its two ends are resolved on the
    tempo state [s]. *)
Definition value_or_zero {num} `{Number num} {S : Type}
    (o : outcome num S num) : num :=
  match o with
  | Returned a _ => a
  | _ => zero
  end.

Definition resolved {num} `{Number num} (s : tempo.tempo num)
    (n : notation.note num) : instruction.instruction num :=
  let d := notation.duration n in
  instruction.new n
    (value_or_zero (tempo.beat_to_time (notation.beats.start d) s))
    (value_or_zero (tempo.beat_to_time
       (add (notation.beats.start d) (notation.beats.duration d)) s)).

(** The state [advance(dt)] leaves when the cursor stays in the front
    segment [t], and when it moves from [t] on to [t'], the front of the
    rest [q] of the queue. *)
Definition stayed {num} `{Number num} (dt : num) (s : tempo.tempo num)
    (t : notation.timing.timing num) : tempo.tempo num :=
  tempo.settle t (tempo.timings s)
    (timing.mk_time (add (timing.t (tempo.now s)) dt) dt
       (timing.beat (tempo.now s)) (timing.dbeat (tempo.now s)))
    (tempo.now s)
    (timing.mk_time (add (timing.t (tempo.global s)) dt) dt
       (timing.beat (tempo.global s)) (timing.dbeat (tempo.global s))).

Definition switched {num} `{Number num} (dt : num) (s : tempo.tempo num)
    (t t' : notation.timing.timing num)
    (q : list (notation.timing.timing num)) : tempo.tempo num :=
  tempo.settle t' q
    (timing.mk_time
       (sub dt (sub (notation.timing.full_time t) (timing.t (tempo.now s))))
       dt (timing.beat (tempo.now s)) (timing.dbeat (tempo.now s)))
    (timing.mk_time (timing.t (tempo.now s)) (timing.dt (tempo.now s))
       (opp (sub (notation.timing.duration t) (timing.beat (tempo.now s))))
       (timing.dbeat (tempo.now s)))
    (timing.mk_time (add (timing.t (tempo.global s)) dt) dt
       (timing.beat (tempo.global s)) (timing.dbeat (tempo.global s))).

(** Both ends of a note resolve on the tempo state [s]. *)
Definition returns {num S A : Type} (o : outcome num S A) : bool :=
  match o with
  | Returned _ _ => true
  | _ => false
  end.

Definition resolvable {num} `{Number num} (s : tempo.tempo num)
    (n : notation.note num) : bool :=
  let d := notation.duration n in
  returns (tempo.beat_to_time (notation.beats.start d) s) &&
  returns (tempo.beat_to_time
     (add (notation.beats.start d) (notation.beats.duration d)) s).

End spec.

(** ** Concrete engines *)

Module example.

Local Open Scope Q_scope.

(** Segment A, 4 beats over 2 seconds, then segment B, 4 beats over 1
    second; in exact rationals and in [double]. *)
Definition two_segments : tempo.tempo Q :=
  scenario.tempo_of
    [notation.timing.constant 4 2; notation.timing.constant 4 1].

Definition two_segments_double : tempo.tempo float :=
  scenario.tempo_of
    [notation.timing.constant 4%float 2%float;
     notation.timing.constant 4%float 1%float].

(** One segment, 4 beats over 2 seconds. *)
Definition one_segment : tempo.tempo Q :=
  scenario.tempo_of [notation.timing.constant 4 2].

Definition one_segment_double : tempo.tempo float :=
  scenario.tempo_of [notation.timing.constant 4%float 2%float].

(** The two segments after an [advance(2.5)], which leaves segment A. *)
Definition two_segments_later : tempo.tempo Q :=
  match tempo.advance (5 # 2) two_segments with
  | Returned _ s => s
  | _ => two_segments
  end.

(** Modelled from the spec: the constant volume [simple(left, right)],
    engine side. *)
Definition simple (vol_left vol_right : Q) : volume.volume Q :=
  volume.mk_volume (fun _ _ => volume.mk_stereo vol_left vol_right).

(** Modelled from the spec: a constant pitch. *)
Definition steady (hz : Q) : pitch.pitch Q :=
  pitch.mk_pitch (fun _ _ => hz).

(** Modelled from the spec: an instrument that sounds each channel at its
    volume. *)
Definition full_scale : instrument.instrument Q :=
  instrument.mk_instrument
    (fun _ _ vol _ => sample.mk_sample (volume.left vol) (volume.right vol)).

(** A note of that kind over [duration] beats from [start]. *)
Definition note_at (start duration vol : Q) : notation.note Q :=
  notation.mk_note (steady 440) full_scale (simple vol vol)
    (notation.beats.mk_beats start duration).

(** Two notes over the two segments: beats [0, 4] and beats [6, 7]. *)
Definition two_notes : list (notation.note Q) :=
  [note_at 0 4 (1 # 2); note_at 6 1 1].

Definition segments_AB : list (notation.timing.timing Q) :=
  [notation.timing.constant 4 2; notation.timing.constant 4 1].

(** Two notes of full volume sounding together over beats [0, 4] of the
    single segment, and the player after [n] ticks of a tenth of a second
    (the player as it stands, should a tick not return). *)
Definition chord : notation.song Q :=
  notation.mk_song [notation.timing.constant 4 2]
    [note_at 0 4 1; note_at 0 4 1].

Definition after_ticks (song : notation.song Q) (n : nat) : player.player Q :=
  match scenario.built song with
  | Some p =>
      match scenario.ticks n (1 # 10) p with
      | Returned _ p' => p'
      | _ => p
      end
  | None => player.mk_player tempo.new [] [] (sample.mk_sample 0 0)
  end.

End example.

(** ** Runs and measures *)

Module trace.

Section Trace.
Context {num : Type} `{Number num}.

Local Open Scope monad_scope.

(** The calls [advance(dt)] on a tempo mapper for each [dt] of [dts], in
    order, as long as they return. *)
Fixpoint advances (dts : list num) : M num (tempo.tempo num) unit :=
  match dts with
  | [] => ret tt
  | dt :: dts' => tempo.advance dt ;; advances dts'
  end.

(** At most [n] turns of [top(); pop()] on a piano roll: the instructions
    in the order the roll hands them out. *)
Fixpoint drain (n : nat) (r : list (instruction.instruction num))
  : list (instruction.instruction num) :=
  match n with
  | O => []
  | S n' =>
      match player.top r with
      | Some x => x :: drain n' (player.pop r)
      | None => []
      end
  end.

End Trace.

End trace.

Module measure.

Local Open Scope Q_scope.

(** The sum of the samples of the active instructions at cursor [t], and
    the sum of the larger of their two volumes. *)
Definition contribution (t : timing.time Q)
    (p : instruction.instruction Q) : sample.sample Q :=
  let b := instruction.bounds p in
  let vol := volume.get_volume (instruction.volume p) b t in
  let pitch := pitch.get_pitch (instruction.pitch p) b t in
  instrument.get_sample (instruction.instrument p) b t vol pitch.

Definition peak (t : timing.time Q) (p : instruction.instruction Q) : Q :=
  let vol :=
    volume.get_volume (instruction.volume p) (instruction.bounds p) t in
  max (volume.right vol) (volume.left vol).

Definition summed_left (t : timing.time Q)
    (l : list (instruction.instruction Q)) : Q :=
  fold_right (fun p acc => sample.left (contribution t p) + acc) 0 l.

Definition summed_right (t : timing.time Q)
    (l : list (instruction.instruction Q)) : Q :=
  fold_right (fun p acc => sample.right (contribution t p) + acc) 0 l.

Definition loudness (t : timing.time Q)
    (l : list (instruction.instruction Q)) : Q :=
  fold_right (fun p acc => peak t p + acc) 0 l.

End measure.

(** ** Further concrete engines *)

Module instance.

Local Open Scope Q_scope.

(** The single segment once [advance(2)] has thrown [end_of_song]. *)
Definition one_segment_ended : tempo.tempo Q :=
  match tempo.advance 2 example.one_segment with
  | Thrown _ s => s
  | _ => example.one_segment
  end.

(** The two segments after a tick of 0.1 s and one of 2.5 s. *)
Definition two_ticks : list Q := [1 # 10; 5 # 2].

Definition two_segments_ticked : tempo.tempo Q :=
  match trace.advances two_ticks example.two_segments with
  | Returned _ s => s
  | _ => example.two_segments
  end.

End instance.

(** ** Arithmetic that may round *)

Module rounded.

Section Laws.
Context {num : Type} `{Number num}.

Local Open Scope num_scope.

(** [a <= b] and "equal as far as [<=] can tell", by the code's own
    comparison. *)
Definition le (a b : num) : Prop := (a <=? b) = true.

Definition same (a b : num) : Prop := le a b /\ le b a.

(** What the order properties below use of the arithmetic: [<=] is a
    total preorder, and sums, differences and negation are monotone.
    Exact rationals satisfy these laws, and so does an arithmetic that
    rounds every exact result monotonically (round to nearest on finite
    values); associativity, cancellation and strict monotonicity, which
    rounding breaks, are not among them. *)
Record laws : Prop := mk_laws {
  law_refl : forall a, le a a;
  law_trans : forall a b c, le a b -> le b c -> le a c;
  law_total : forall a b, le a b \/ le b a;
  law_add : forall a b c, le b c -> le (a + b) (a + c);
  law_add_zero : forall a, le a (a + zero);
  law_sub : forall a b c d, le a b -> le c d -> le (a - d) (b - c);
  law_sub_self : forall a, le zero (a - a);
  law_sub_zero : forall a, same (a - zero) a;
  law_opp : forall a, le zero a -> le (- a) zero
}.

(** [f] does not decrease on [[0, hi]]. *)
Definition increasing_on (f : num -> num) (hi : num) : Prop :=
  forall a b, le zero a -> le a b -> le b hi -> le (f a) (f b).

(** [beat_to_time] of a segment of non-negative duration is increasing on
    [[0, duration]] and exact at both ends. *)
Definition beat_to_time_ok (seg : notation.timing.timing num) : Prop :=
  le zero (notation.timing.duration seg) /\
  increasing_on (notation.timing.beat_to_time seg)
                (notation.timing.duration seg) /\
  same (notation.timing.beat_to_time seg zero) zero /\
  same (notation.timing.beat_to_time seg (notation.timing.duration seg))
       (notation.timing.full_time seg).

(** [time_to_beat] of a segment is increasing on [[0, full_time()]] and
    exact at both ends. *)
Definition time_to_beat_ok (seg : notation.timing.timing num) : Prop :=
  le zero (notation.timing.full_time seg) /\
  increasing_on (notation.timing.time_to_beat seg)
                (notation.timing.full_time seg) /\
  same (notation.timing.time_to_beat seg zero) zero /\
  same (notation.timing.time_to_beat seg (notation.timing.full_time seg))
       (notation.timing.duration seg).

(** The local cursor is consistent with the front segment: its time lies
    in [[0, full_time()]] and its beat is the segment's [time_to_beat] of
    that time. *)
Definition cursor_ok (s : tempo.tempo num) : Prop :=
  match tempo.timings s with
  | [] => True
  | t :: _ =>
      le zero (timing.t (tempo.now s)) /\
      le (timing.t (tempo.now s)) (notation.timing.full_time t) /\
      same (timing.beat (tempo.now s))
           (notation.timing.time_to_beat t (timing.t (tempo.now s)))
  end.

(** [advance(dt)] crosses at most one segment boundary and carries a
    proper time over it: if it leaves the front segment, the time it sets,
    [dt - (full_time() - now.t)], is not negative and within the next
    segment. *)
Definition carries_over (dt : num) (s : tempo.tempo num) : Prop :=
  match tempo.timings s with
  | t :: t' :: _ =>
      le (notation.timing.full_time t) (timing.t (tempo.now s) + dt) ->
      le zero (dt - (notation.timing.full_time t - timing.t (tempo.now s)))
      /\
      le (dt - (notation.timing.full_time t - timing.t (tempo.now s)))
         (notation.timing.full_time t')
  | _ => True
  end.

End Laws.

End rounded.

(** ** Engines on which an order is lost *)

Module counter.

Section Kinked.
Context {num : Type} `{Number num}.

Local Open Scope num_scope.

(** Modelled from the spec: a segment of constant tempo on
    [[0, duration]] whose [beat_to_time] answers [high] below beat 0,
    where the interface promises nothing. *)
Definition kinked (beats seconds high : num) : notation.timing.timing num :=
  notation.timing.mk_timing beats seconds
    (fun b => if b <? zero then high else b * seconds / beats)
    (fun t => t * beats / seconds).

End Kinked.

Local Open Scope Q_scope.

(** A tempo state whose local beat is negative. *)
Definition behind : tempo.tempo Q :=
  tempo.mk_tempo [kinked 4 2 100]
    (timing.mk_time 0 0 (- (1)) 0) (timing.mk_time 0 0 0 0).

(** Segments of 2, 1 and 1 seconds. *)
Definition three_segments : tempo.tempo Q :=
  scenario.tempo_of
    [notation.timing.constant 4 2; notation.timing.constant 4 1;
     notation.timing.constant 1 1].

(** In [double]: 2.4 beats over 1.2 s, then 12 beats over 1.2 s with the
    kink; and twelve ticks of 0.1 s. *)
Definition seconds_1_2 : float := 0x1.3333333333333p+0%float.

Definition beats_2_4 : float := 0x1.3333333333333p+1%float.

Definition kinked_song : tempo.tempo float :=
  scenario.tempo_of
    [notation.timing.constant beats_2_4 seconds_1_2;
     kinked 12%float seconds_1_2 100%float].

Definition twelve_ticks : list float := repeat scenario.tenth 12.

(** In [double]: one beat over one second, then 1024 beats over one
    second. *)
Definition steep : tempo.tempo float :=
  scenario.tempo_of
    [notation.timing.constant 1%float 1%float;
     notation.timing.constant 1024%float 1%float].

End counter.

(** * Properties *)

Local Open Scope Q_scope.

(** ** Comparisons and [std::max] on rationals *)

Lemma leb_Q (a b : Q) : leb a b = true <-> a <= b.
Proof. apply Qle_bool_iff. Qed.

Lemma leb_Q_false (a b : Q) : leb a b = false <-> b < a.
Proof.
  split; intro Hab.
  - apply Qnot_le_lt. intro Hle. apply leb_Q in Hle. congruence.
  - destruct (leb a b) eqn:E; trivial.
    apply leb_Q in E. exfalso. apply (Qlt_not_le _ _ Hab E).
Qed.

Lemma ltb_Q (a b : Q) : ltb a b = true <-> a < b.
Proof.
  change (ltb a b) with (negb (leb b a)).
  rewrite negb_true_iff. apply leb_Q_false.
Qed.

Lemma ltb_Q_false (a b : Q) : ltb a b = false <-> b <= a.
Proof.
  change (ltb a b) with (negb (leb b a)).
  rewrite negb_false_iff. apply leb_Q.
Qed.

Lemma max_Q_cases (a b : Q) :
  (a < b /\ max a b = b) \/ (b <= a /\ max a b = a).
Proof.
  unfold max. destruct (ltb a b) eqn:E.
  - left. split; trivial. now apply ltb_Q.
  - right. split; trivial. now apply ltb_Q_false.
Qed.

Lemma max_Q_l (a b : Q) : a <= max a b.
Proof. destruct (max_Q_cases a b) as [[? ->]|[? ->]]; lra. Qed.

Lemma max_Q_r (a b : Q) : b <= max a b.
Proof. destruct (max_Q_cases a b) as [[? ->]|[? ->]]; lra. Qed.

Lemma max_Q_sym (a b : Q) : max a b <= max b a.
Proof.
  destruct (max_Q_cases a b) as [[? ->]|[? ->]];
    [apply max_Q_l | apply max_Q_r].
Qed.

(** ** [tempo::advance], case by case *)

Lemma advance_stays (dt : Q) (s : tempo.tempo Q)
    (t : notation.timing.timing Q) (rest : list (notation.timing.timing Q)) :
  0 <= dt ->
  tempo.timings s = t :: rest ->
  timing.t (tempo.now s) + dt < notation.timing.full_time t ->
  tempo.advance dt s = Returned tt (spec.stayed dt s t).
Proof.
  intros Hdt Hq Hlt.
  unfold tempo.advance, bind, assert, spec.stayed.
  apply leb_Q in Hdt. cbn in Hdt |- *. rewrite Hdt, Hq; cbn.
  apply leb_Q_false in Hlt. cbn in Hlt. now rewrite Hlt.
Qed.

Lemma advance_switches (dt : Q) (s : tempo.tempo Q)
    (t t' : notation.timing.timing Q)
    (rest : list (notation.timing.timing Q)) :
  0 <= dt ->
  tempo.timings s = t :: t' :: rest ->
  notation.timing.full_time t <= timing.t (tempo.now s) + dt ->
  tempo.advance dt s = Returned tt (spec.switched dt s t t' (t' :: rest)).
Proof.
  intros Hdt Hq Hle.
  unfold tempo.advance, bind, assert, spec.switched.
  apply leb_Q in Hdt. cbn in Hdt |- *. rewrite Hdt, Hq; cbn.
  apply leb_Q in Hle. cbn in Hle. now rewrite Hle.
Qed.

Lemma advance_returned (dt : Q) (s s' : tempo.tempo Q) :
  tempo.advance dt s = Returned tt s' ->
  0 <= dt /\
  exists t rest, tempo.timings s = t :: rest /\
    ((timing.t (tempo.now s) + dt < notation.timing.full_time t /\
      s' = spec.stayed dt s t) \/
     (notation.timing.full_time t <= timing.t (tempo.now s) + dt /\
      exists t' rest', rest = t' :: rest' /\
        s' = spec.switched dt s t t' rest)).
Proof.
  unfold tempo.advance, bind, assert.
  destruct (leb zero dt) eqn:Hdt; [|discriminate].
  apply leb_Q in Hdt. split; [exact Hdt|].
  destruct (tempo.timings s) as [|t rest] eqn:Hq; [discriminate|].
  exists t, rest. split; trivial. revert H. cbn.
  destruct (Qle_bool _ _) eqn:Hcmp.
  - apply leb_Q in Hcmp. destruct rest as [|t' rest']; [discriminate|].
    intros [= <-]. right. split; trivial. exists t', rest'. split; trivial.
  - apply leb_Q_false in Hcmp. intros [= <-]. left. split; trivial.
    unfold spec.stayed. now rewrite Hq.
Qed.

(** ** Crossing a segment boundary *)

(** C3.  An [advance(dt)], [dt >= 0], for which the local time with [dt]
    added reaches [full_time()] of the front segment [t] while a further
    segment [t'] waits behind it, returns; the local time becomes [dt]
    minus the seconds that were left in [t], the front segment is popped,
    the local beat is [t']'s [time_to_beat] of the new local time, and the
    delta added to [global.beat] is that beat plus the beats that were
    left in [t]. *)
Theorem advance_across_boundary (dt : Q) (s : tempo.tempo Q)
    (t t' : notation.timing.timing Q)
    (rest : list (notation.timing.timing Q)) :
  0 <= dt ->
  tempo.timings s = t :: t' :: rest ->
  notation.timing.full_time t <= timing.t (tempo.now s) + dt ->
  exists s',
    tempo.advance dt s = Returned tt s' /\
    tempo.timings s' = t' :: rest /\
    timing.t (tempo.now s') =
      dt - (notation.timing.full_time t - timing.t (tempo.now s)) /\
    timing.beat (tempo.now s') =
      notation.timing.time_to_beat t' (timing.t (tempo.now s')) /\
    timing.beat (tempo.global s') =
      timing.beat (tempo.global s) + timing.dbeat (tempo.global s') /\
    timing.dbeat (tempo.global s') ==
      notation.timing.time_to_beat t' (timing.t (tempo.now s'))
      + (notation.timing.duration t - timing.beat (tempo.now s)) /\
    timing.t (tempo.global s') = timing.t (tempo.global s) + dt.
Proof.
  intros Hdt Hq Hle.
  exists (spec.switched dt s t t' (t' :: rest)).
  split; [now apply advance_switches|].
  cbn. repeat split; try reflexivity.
  ring.
Qed.

Lemma advance_across_boundary_witness :
  exists s',
    tempo.advance (5 # 2) example.two_segments = Returned tt s' /\
    tempo.timings s' = [notation.timing.constant 4 1] /\
    timing.t (tempo.now s') = (5 # 2) - (2 - 0) /\
    timing.beat (tempo.now s') =
      notation.timing.time_to_beat (notation.timing.constant 4 1)
        (timing.t (tempo.now s')) /\
    timing.beat (tempo.global s') = 0 + timing.dbeat (tempo.global s') /\
    timing.dbeat (tempo.global s') ==
      notation.timing.time_to_beat (notation.timing.constant 4 1)
        (timing.t (tempo.now s')) + (4 - 0) /\
    timing.t (tempo.global s') = 0 + (5 # 2).
Proof.
  apply (@advance_across_boundary (5 # 2) example.two_segments
           (notation.timing.constant 4 2) (notation.timing.constant 4 1) []).
  - vm_compute. discriminate.
  - reflexivity.
  - vm_compute. discriminate.
Defined.

(** ** [tempo::beat_to_time] only reads *)

Section Frame.
Context {num : Type} `{Number num}.

Lemma beat_to_time_frame (beat : num) (s : tempo.tempo num) :
  match tempo.beat_to_time beat s with
  | Returned _ s' | Thrown _ s' => s' = s
  | _ => False
  end.
Proof.
  unfold tempo.beat_to_time, throw, ret.
  destruct (ltb beat _); trivial.
  destruct (tempo.walk _ _ _); trivial.
Qed.

Lemma beat_to_time_returned (beat r : num) (s s' : tempo.tempo num) :
  tempo.beat_to_time beat s = Returned r s' ->
  s' = s /\ spec.value_or_zero (tempo.beat_to_time beat s) = r.
Proof.
  intro E. pose proof (beat_to_time_frame beat s) as F.
  rewrite E in F |- *. now split.
Qed.

Lemma push_notes_returned (ns : list (notation.note num)) :
  forall p p' : player.player num,
    player.push_notes ns p = Returned tt p' ->
    p' = player.mk_player (player.now p)
           (player.roll p ++ map (spec.resolved (player.now p)) ns)
           (player.active p) (player.sound_ p) /\
    forallb (spec.resolvable (player.now p)) ns = true.
Proof.
  induction ns as [|n ns IH]; intros [nw r a sd] p'; cbn.
  - unfold ret. intros [= <-]. now rewrite app_nil_r.
  - unfold bind at 1, player.on_now at 1. cbn.
    destruct (tempo.beat_to_time _ nw) as [r1 s1| | |] eqn:E1;
      try discriminate.
    apply beat_to_time_returned in E1 as E1'. destruct E1' as [-> V1].
    unfold bind at 1, player.on_now at 1. cbn.
    destruct (tempo.beat_to_time (_ + _)%num nw) as [r2 s2| | |] eqn:E2;
      try discriminate.
    apply beat_to_time_returned in E2 as E2'. destruct E2' as [-> V2].
    cbn. intro E.
    apply IH in E. cbn in E. destruct E as [-> Hall].
    unfold spec.resolvable at 1. rewrite E1, E2, Hall. cbn.
    split; trivial.
    rewrite <- app_assoc. cbn. unfold player.push.
    now rewrite <- V1, <- V2.
Qed.

Lemma push_notes_resolvable (ns : list (notation.note num)) :
  forall p : player.player num,
    forallb (spec.resolvable (player.now p)) ns = true ->
    player.push_notes ns p =
      Returned tt
        (player.mk_player (player.now p)
           (player.roll p ++ map (spec.resolved (player.now p)) ns)
           (player.active p) (player.sound_ p)).
Proof.
  induction ns as [|n ns IH]; intros [nw r a sd]; cbn.
  - intros _. unfold ret. now rewrite app_nil_r.
  - rewrite andb_true_iff. unfold spec.resolvable at 1.
    rewrite andb_true_iff. intros [[R1 R2] Hall].
    unfold bind at 1, player.on_now at 1. cbn.
    destruct (tempo.beat_to_time _ nw) as [r1 s1| | |] eqn:E1;
      try discriminate.
    apply beat_to_time_returned in E1 as E1'. destruct E1' as [-> V1].
    unfold bind at 1, player.on_now at 1. cbn.
    destruct (tempo.beat_to_time (_ + _)%num nw) as [r2 s2| | |] eqn:E2;
      try discriminate.
    apply beat_to_time_returned in E2 as E2'. destruct E2' as [-> V2].
    cbn.
    rewrite (IH (player.mk_player nw _ a sd) Hall). cbn.
    rewrite <- app_assoc. cbn. unfold player.push.
    now rewrite <- V1, <- V2.
Qed.

Lemma new_returned (song : notation.song num) (p : player.player num) :
  player.new song = Returned tt p ->
  let s := scenario.tempo_of (notation.timings song) in
  p = player.mk_player s (map (spec.resolved s) (notation.notes song)) []
        (sample.mk_sample zero zero) /\
  forallb (spec.resolvable s) (notation.notes song) = true.
Proof.
  unfold player.new, bind, modify. cbn. intro E.
  apply push_notes_returned in E. exact E.
Qed.

Lemma new_resolvable (song : notation.song num) :
  let s := scenario.tempo_of (notation.timings song) in
  forallb (spec.resolvable s) (notation.notes song) = true ->
  player.new song =
    Returned tt
      (player.mk_player s (map (spec.resolved s) (notation.notes song)) []
         (sample.mk_sample zero zero)).
Proof.
  cbn. intro Hall. unfold player.new, bind, modify. cbn.
  now rewrite push_notes_resolvable.
Qed.

End Frame.

(** C10.  [beat_to_time] returns or throws [invalid_beat], and either way
    leaves the tempo mapper (queue and both cursors) as it found it; so a
    query answers the same after another query as before it, and the
    constructor, which only queries, builds from the notes in any order
    the same tempo state and the same bag of instructions. *)
Theorem beat_to_time_leaves_state {num : Type} `{Number num} :
  (forall (beat : num) (s : tempo.tempo num),
     match tempo.beat_to_time beat s with
     | Returned _ s' | Thrown _ s' => s' = s
     | _ => False
     end) /\
  (forall (b1 b2 : num) (s : tempo.tempo num),
     match tempo.beat_to_time b1 s with
     | Returned _ s' | Thrown _ s' =>
         tempo.beat_to_time b2 s' = tempo.beat_to_time b2 s
     | _ => False
     end) /\
  (forall (segs : list (notation.timing.timing num))
          (notes notes' : list (notation.note num))
          (p : player.player num),
     Permutation notes notes' ->
     player.new (notation.mk_song segs notes) = Returned tt p ->
     player.now p = scenario.tempo_of segs /\
     player.roll p = map (spec.resolved (scenario.tempo_of segs)) notes /\
     exists p',
       player.new (notation.mk_song segs notes') = Returned tt p' /\
       player.now p' = player.now p /\
       Permutation (player.roll p) (player.roll p')).
Proof.
  split; [|split].
  - apply beat_to_time_frame.
  - intros b1 b2 s. pose proof (beat_to_time_frame b1 s) as F.
    destruct (tempo.beat_to_time b1 s); trivial; now subst.
  - intros segs notes notes' p Hperm E.
    apply new_returned in E. cbv zeta in E.
    cbn [notation.timings notation.notes] in E. destruct E as [-> Hall].
    split; [reflexivity|]. split; [reflexivity|].
    eexists. split.
    + apply new_resolvable. cbn [notation.timings notation.notes].
      rewrite forallb_forall in Hall |- *.
      intros n Hn. apply Hall.
      apply Permutation_in with (l := notes'); [now symmetry | exact Hn].
    + cbn. split; [reflexivity|]. now apply Permutation_map.
Qed.

Lemma beat_to_time_leaves_state_witness :
  let p :=
    player.mk_player example.two_segments
      (map (spec.resolved example.two_segments) example.two_notes) []
      (sample.mk_sample 0 0) in
  player.now p = scenario.tempo_of example.segments_AB /\
  player.roll p =
    map (spec.resolved (scenario.tempo_of example.segments_AB))
      example.two_notes /\
  exists p',
    player.new
      (notation.mk_song example.segments_AB (rev example.two_notes))
      = Returned tt p' /\
    player.now p' = player.now p /\
    Permutation (player.roll p) (player.roll p').
Proof.
  intro p.
  apply (proj2 (proj2 (@beat_to_time_leaves_state Q _))
           example.segments_AB example.two_notes (rev example.two_notes) p).
  - apply Permutation_rev.
  - assert (Hall : forallb (spec.resolvable example.two_segments)
                     example.two_notes = true)
      by (vm_compute; reflexivity).
    exact (@new_resolvable Q _
             (notation.mk_song example.segments_AB example.two_notes) Hall).
Defined.

(** ** [tempo::beat_to_time]: values and failures *)

(** The loop skips a segment whole when the beat lies beyond it. *)
Lemma walk_skips {num : Type} `{Number num}
    (seg : notation.timing.timing num)
    (l : list (notation.timing.timing num)) (t beat : num) :
  leb beat (notation.timing.duration seg) = false ->
  tempo.walk (seg :: l) t beat =
    tempo.walk l (add t (notation.timing.full_time seg))
      (sub beat (notation.timing.duration seg)).
Proof. intro E. cbn. now rewrite E. Qed.

(** C4.  In the construction state with segment A (4 beats, 2 s) before
    segment B (4 beats, 1 s), [beat_to_time(6)] is [full_time()] of A plus
    B's [beat_to_time] of the 2 beats left, 2.5 s, and [beat_to_time(7)]
    is 2.75 s; in exact arithmetic and in [double]. *)
Theorem tempo_change_beat_to_time :
  let A := notation.timing.constant 4 2 in
  let B := notation.timing.constant 4 1 in
  (tempo.beat_to_time 6 example.two_segments =
     Returned (0 + notation.timing.full_time A
               + notation.timing.beat_to_time B
                   (6 - (0 - 0) - notation.timing.duration A))
       example.two_segments /\
   0 + notation.timing.full_time A
     + notation.timing.beat_to_time B
         (6 - (0 - 0) - notation.timing.duration A) == 5 # 2) /\
  (tempo.beat_to_time 7 example.two_segments =
     Returned (0 + notation.timing.full_time A
               + notation.timing.beat_to_time B
                   (7 - (0 - 0) - notation.timing.duration A))
       example.two_segments /\
   0 + notation.timing.full_time A
     + notation.timing.beat_to_time B
         (7 - (0 - 0) - notation.timing.duration A) == 11 # 4) /\
  tempo.beat_to_time 6%float example.two_segments_double =
    Returned 2.5%float example.two_segments_double /\
  tempo.beat_to_time 7%float example.two_segments_double =
    Returned 2.75%float example.two_segments_double.
Proof.
  cbv zeta. repeat split; reflexivity.
Qed.

Lemma in_the_past_iff (beat : Q) (s : tempo.tempo Q) :
  beat < timing.beat (tempo.global s) <->
  tempo.beat_to_time beat s =
    Thrown (invalid_beat beat "Beat in the past.") s.
Proof.
  unfold tempo.beat_to_time, throw, ret. split.
  - intro Hlt. apply ltb_Q in Hlt. now rewrite Hlt.
  - destruct (ltb beat _) eqn:E; [intros _; now apply ltb_Q|].
    destruct (tempo.walk _ _ _); [discriminate|].
    discriminate.
Qed.

Lemma past_end_iff (beat : Q) (s : tempo.tempo Q) (b : Q) :
  (timing.beat (tempo.global s) <= beat /\
   tempo.walk (tempo.timings s) (timing.t (tempo.global s))
     (beat - (timing.beat (tempo.global s) - timing.beat (tempo.now s)))
   = inr b) <->
  tempo.beat_to_time beat s =
    Thrown (invalid_beat b "Beat past end of song.") s.
Proof.
  unfold tempo.beat_to_time, throw, ret. split.
  - intros [Hle Hw]. apply ltb_Q_false in Hle. rewrite Hle.
    cbn in Hw |- *. now rewrite Hw.
  - destruct (ltb beat _) eqn:E; [discriminate|].
    apply ltb_Q_false in E. cbn.
    destruct (tempo.walk _ _ _); [discriminate|].
    intros [= ->]. now split.
Qed.

(** C5.  [beat_to_time(5)] on a single segment of 4 beats runs off the end
    of the queue and throws [invalid_beat] with "Beat past end of song.",
    but the beat it carries is the local [beat] as the loop left it, 1,
    not the 5 that was asked for; in exact arithmetic and in [double]. *)
Theorem past_end_carries_reduced_beat :
  tempo.beat_to_time 5 example.one_segment =
    Thrown (invalid_beat 1 "Beat past end of song.") example.one_segment /\
  tempo.beat_to_time 5%float example.one_segment_double =
    Thrown (invalid_beat 1%float "Beat past end of song.")
      example.one_segment_double.
Proof. split; reflexivity. Qed.

(** ** After the end of the song *)

Lemma advance_thrown {num : Type} `{Number num} (dt : num)
    (s s' : tempo.tempo num) (e : exn num) :
  tempo.advance dt s = Thrown e s' ->
  e = end_of_song "Ran out of timing specs!" /\ tempo.timings s' = [].
Proof.
  unfold tempo.advance, bind, assert.
  destruct (leb zero dt); [|discriminate].
  destruct (tempo.timings s) as [|t [|t' rest]]; try discriminate;
    destruct (leb _ _); try discriminate.
  intros [= <- <-]. now split.
Qed.

Lemma advance_on_empty_queue {num : Type} `{Number num} (dt : num)
    (s : tempo.tempo num) :
  tempo.timings s = [] ->
  tempo.advance dt s =
    (if leb zero dt then Undefined "front() of an empty std::list"
     else Aborted "must be greater than zero!").
Proof.
  intro Hq. unfold tempo.advance, bind, assert.
  destruct (leb zero dt); trivial. now rewrite Hq.
Qed.

(** C8.  On a single segment of 2 seconds, [advance(2)] throws
    [end_of_song] and leaves the queue empty; the next [advance(0.1)]
    does not throw: it calls [front()] on the empty list.  In exact
    arithmetic and in [double]; and the same on the player of the empty
    song, once its twentieth tick has thrown. *)
Theorem advance_after_end_of_song :
  (exists s',
     tempo.advance 2 example.one_segment =
       Thrown (end_of_song "Ran out of timing specs!") s' /\
     tempo.timings s' = [] /\
     tempo.advance (1 # 10) s' = Undefined "front() of an empty std::list") /\
  (exists s',
     tempo.advance 2%float example.one_segment_double =
       Thrown (end_of_song "Ran out of timing specs!") s' /\
     tempo.timings s' = [] /\
     tempo.advance scenario.tenth s' =
       Undefined "front() of an empty std::list") /\
  (exists p0 sounds p19 p20,
     scenario.built (scenario.empty_song 4 2) = Some p0 /\
     scenario.ticks 19 (1 # 10) p0 = Returned sounds p19 /\
     player.advance (1 # 10) p19 =
       Thrown (end_of_song "Ran out of timing specs!") p20 /\
     player.advance (1 # 10) p20 =
       Undefined "front() of an empty std::list").
Proof.
  split; [|split].
  - eexists; (split; [reflexivity|]); split; reflexivity.
  - eexists; (split; [reflexivity|]); split; reflexivity.
  - do 4 eexists. split; [reflexivity|].
    split; [vm_compute; reflexivity|].
    split; [vm_compute; reflexivity|].
    vm_compute. reflexivity.
Qed.

(** ** The empty song *)

(** On the song of one segment (4 beats, 2 s) and no notes, twenty turns
    of [advance(0.1); sound()] do not all return, neither in exact
    arithmetic nor in [double]. *)
Lemma empty_song_twenty_ticks_do_not_return :
  ~ (exists p0 sounds p20,
       scenario.built (scenario.empty_song 4 2) = Some p0 /\
       scenario.ticks 20 (1 # 10) p0 = Returned sounds p20) /\
  ~ (exists p0 sounds p20,
       scenario.built (scenario.empty_song 4%float 2%float) = Some p0 /\
       scenario.ticks 20 scenario.tenth p0 = Returned sounds p20).
Proof.
  split; intros (p0 & sounds & p20 & H0 & H20);
    vm_compute in H0; injection H0 as <-;
    vm_compute in H20; discriminate H20.
Qed.

(** C2, amended.  On that song nineteen turns of [advance(0.1); sound()]
    return and read the silent frame each time; the twentieth
    [advance(0.1)] brings the local time to [full_time()], pops the only
    segment and throws [end_of_song], and [sound()] still reads the silent
    frame.  In exact arithmetic and in [double]. *)
Theorem empty_song_ends_on_twentieth_tick :
  (exists p0 p19 p20,
     scenario.built (scenario.empty_song 4 2) = Some p0 /\
     scenario.ticks 19 (1 # 10) p0 =
       Returned (repeat (sample.mk_sample 0 0) 19) p19 /\
     player.advance (1 # 10) p19 =
       Thrown (end_of_song "Ran out of timing specs!") p20 /\
     player.sound p20 = Returned (sample.mk_sample 0 0) p20) /\
  (exists p0 p19 p20,
     scenario.built (scenario.empty_song 4%float 2%float) = Some p0 /\
     scenario.ticks 19 scenario.tenth p0 =
       Returned (repeat (sample.mk_sample 0%float 0%float) 19) p19 /\
     player.advance scenario.tenth p19 =
       Thrown (end_of_song "Ran out of timing specs!") p20 /\
     player.sound p20 = Returned (sample.mk_sample 0%float 0%float) p20).
Proof.
  split; do 3 eexists; (split; [reflexivity|]);
    (split; [vm_compute; reflexivity|]);
    (split; [vm_compute; reflexivity|]); reflexivity.
Qed.

(** ** [player::advance], step by step *)

Lemma player_advance_returned {num : Type} `{Number num} (dt : num)
    (p p' : player.player num) :
  player.advance dt p = Returned tt p' ->
  exists s' : tempo.tempo num,
    tempo.advance dt (player.now p) = Returned tt s' /\
    let t := tempo.global s' in
    p' = player.compute_sound t
           (player.retire t
              (player.promote t
                 (player.mk_player s' (player.roll p) (player.active p)
                    (player.sound_ p)))).
Proof.
  unfold player.advance, bind, assert, player.on_now, modify, tempo.get, ret.
  destruct (leb zero dt); [|discriminate].
  destruct (tempo.advance dt (player.now p)) as [[] s'| | |];
    try discriminate.
  cbn. intros [= <-]. exists s'. split; reflexivity.
Qed.

Lemma promote_now {num : Type} `{Number num} (t : timing.time num)
    (p : player.player num) :
  player.now (player.promote t p) = player.now p.
Proof.
  unfold player.promote. destruct (player.top _); trivial.
  destruct (leb _ _); trivial.
Qed.

Lemma player_advance_now {num : Type} `{Number num} (dt : num)
    (p p' : player.player num) :
  player.advance dt p = Returned tt p' ->
  tempo.advance dt (player.now p) = Returned tt (player.now p').
Proof.
  intro E. apply player_advance_returned in E.
  destruct E as (s' & E & ->). cbn. now rewrite promote_now.
Qed.

Lemma player_advance_sound {num : Type} `{Number num} (dt : num)
    (p p' : player.player num) :
  player.advance dt p = Returned tt p' ->
  player.sound_ p' =
    player.mix (tempo.global (player.now p')) (player.active p').
Proof.
  intro E. apply player_advance_returned in E.
  destruct E as (s' & E & ->). cbn. now rewrite promote_now.
Qed.

(** ** The mixer *)

Lemma mix_fold_bound (t : timing.time Q)
    (l : list (instruction.instruction Q)) :
  forall (s : sample.sample Q) (n : Q),
    Forall (spec.sample_within t) l ->
    Qabs (sample.left s) <= n ->
    Qabs (sample.right s) <= n ->
    Qabs (sample.left (fst (fold_left (player.mix_step t) l (s, n))))
      <= snd (fold_left (player.mix_step t) l (s, n)) /\
    Qabs (sample.right (fst (fold_left (player.mix_step t) l (s, n))))
      <= snd (fold_left (player.mix_step t) l (s, n)).
Proof.
  induction l as [|i l IH]; intros s n Hall Hl Hr; cbn [fold_left].
  - now split.
  - inversion Hall as [|? ? [Hil Hir] Hall']; subst.
    unfold player.mix_step at 2 4 6 8. apply IH; trivial; cbn.
    + eapply Qle_trans; [apply Qabs_triangle|].
      pose proof (max_Q_sym
        (volume.left (volume.get_volume (instruction.volume i)
                        (instruction.bounds i) t))
        (volume.right (volume.get_volume (instruction.volume i)
                         (instruction.bounds i) t))) as Hm.
      lra.
    + eapply Qle_trans; [apply Qabs_triangle|].
      pose proof (max_Q_sym
        (volume.left (volume.get_volume (instruction.volume i)
                        (instruction.bounds i) t))
        (volume.right (volume.get_volume (instruction.volume i)
                         (instruction.bounds i) t))) as Hm.
      lra.
Qed.

Lemma Qabs_div_le_1 (x n m : Q) :
  Qabs x <= n -> n <= m -> 1 <= m -> Qabs (x / m) <= 1.
Proof.
  intros Hx Hn Hm.
  assert (Hpos : 0 < m) by lra.
  assert (Hb : Qabs x <= m) by lra.
  apply Qabs_Qle_condition in Hb. destruct Hb as [Hlo Hhi].
  apply Qabs_Qle_condition. split.
  - apply Qle_shift_div_l; lra.
  - apply Qle_shift_div_r; lra.
Qed.

Lemma mix_bound (t : timing.time Q) (l : list (instruction.instruction Q)) :
  Forall (spec.sample_within t) l ->
  Qabs (sample.left (player.mix t l)) <= 1 /\
  Qabs (sample.right (player.mix t l)) <= 1.
Proof.
  intro Hall. unfold player.mix.
  pose proof (@mix_fold_bound t l (sample.mk_sample 0 0) 0 Hall) as B.
  cbn in B. specialize (B ltac:(cbn; lra) ltac:(cbn; lra)).
  change (@zero Q Number_Q) with 0 in *. change (@one Q Number_Q) with 1 in *.
  destruct (fold_left _ _ _) as [s n]. cbn in B |- *. destruct B as [Bl Br].
  split; eapply Qabs_div_le_1; eauto using max_Q_l, max_Q_r.
Qed.

(** C1.  When [advance(dt)] returns and every instruction then active
    contributes, at the cursor of that tick, a sample whose two channels
    are within [max(vol.left, vol.right)] of the volume evaluated at that
    cursor, the sample that [sound()] returns has both channels within
    [[-1, 1]]. *)
Theorem mixer_output_within_unit (dt : Q) (p p' : player.player Q) :
  player.advance dt p = Returned tt p' ->
  (forall i, In i (player.active p') ->
     spec.sample_within (tempo.global (player.now p')) i) ->
  exists s,
    player.sound p' = Returned s p' /\
    Qabs (sample.left s) <= 1 /\ Qabs (sample.right s) <= 1.
Proof.
  intros E Hall. exists (player.sound_ p'). split; [reflexivity|].
  rewrite (player_advance_sound _ _ E).
  apply mix_bound. now apply Forall_forall.
Qed.

Lemma mixer_output_within_unit_witness :
  exists s,
    player.sound (example.after_ticks example.chord 2) =
      Returned s (example.after_ticks example.chord 2) /\
    Qabs (sample.left s) <= 1 /\ Qabs (sample.right s) <= 1.
Proof.
  apply (@mixer_output_within_unit (1 # 10)
           (example.after_ticks example.chord 1)
           (example.after_ticks example.chord 2)).
  - vm_compute. reflexivity.
  - intros i Hin. vm_compute in Hin.
    destruct Hin as [<-|[<-|[]]]; vm_compute; split; discriminate.
Defined.

(** ** The piano roll: promotion and retirement *)

Lemma take_top_none {num : Type} `{Number num}
    (r : list (instruction.instruction num)) :
  player.take_top r = None -> r = [].
Proof.
  destruct r as [|x r]; trivial. cbn.
  destruct (player.take_top r) as [[y r'']|]; [|discriminate].
  destruct (player.ptrcmp x y); discriminate.
Qed.

Lemma take_top_some (r : list (instruction.instruction Q)) :
  forall x r',
    player.take_top r = Some (x, r') ->
    Permutation r (x :: r') /\
    Forall (fun y => player.start_beat x <= player.start_beat y) r.
Proof.
  induction r as [|x0 r IH]; intros x r'; cbn -[player.ptrcmp];
    [discriminate|].
  destruct (player.take_top r) as [[y r'']|] eqn:E.
  - destruct (IH y r'' eq_refl) as [Hperm Hmin].
    destruct (player.ptrcmp x0 y) eqn:C;
      intro Hx; inversion Hx; subst; clear Hx.
    + apply ltb_Q in C. split.
      * rewrite Hperm. apply perm_swap.
      * constructor; [lra | exact Hmin].
    + apply ltb_Q_false in C. split; [reflexivity|].
      constructor; [lra|].
      eapply Forall_impl; [|exact Hmin]. cbn. intros z Hz. lra.
  - apply take_top_none in E. subst r.
    intro Hx; inversion Hx; subst; clear Hx.
    split; [reflexivity|]. constructor; [lra | constructor].
Qed.

Lemma erase_ended_filter (t : timing.time Q)
    (l : list (instruction.instruction Q)) :
  player.erase_ended t l = filter (spec.stays (timing.beat t)) l.
Proof.
  induction l as [|i l IH]; cbn [player.erase_ended filter]; trivial.
  unfold spec.stays at 1.
  destruct (ltb (player.end_beat i) (timing.beat t));
    cbn [negb]; now rewrite IH.
Qed.

Lemma stays_false_iff (g : Q) (i : instruction.instruction Q) :
  spec.stays g i = false <-> player.end_beat i < g.
Proof.
  unfold spec.stays. rewrite negb_false_iff. apply ltb_Q.
Qed.

(** C9.  When [advance] returns, with [g] the global beat it reached:
    the top of the roll is an element of least start beat; if the roll is
    empty, or its top starts after [g], the roll is left alone; if the top
    starts at or before [g] that one instruction, and no other, leaves the
    roll and joins the end of the active list; and the active list that
    remains is that list without exactly the instructions whose end beat
    is below [g]. *)
Theorem one_promotion_per_tick (dt : Q) (p p' : player.player Q) :
  player.advance dt p = Returned tt p' ->
  let g := timing.beat (tempo.global (player.now p')) in
  (forall i, spec.stays g i = false <-> player.end_beat i < g) /\
  match player.top (player.roll p) with
  | None =>
      player.roll p = [] /\
      player.roll p' = [] /\
      player.active p' = filter (spec.stays g) (player.active p)
  | Some top =>
      Permutation (player.roll p) (top :: player.pop (player.roll p)) /\
      (forall i, In i (player.roll p) ->
         player.start_beat top <= player.start_beat i) /\
      (player.start_beat top <= g ->
         player.roll p' = player.pop (player.roll p) /\
         player.active p' =
           filter (spec.stays g) (player.active p ++ [top])) /\
      (~ player.start_beat top <= g ->
         player.roll p' = player.roll p /\
         player.active p' = filter (spec.stays g) (player.active p))
  end.
Proof.
  intros E g. split; [intro i; apply stays_false_iff|].
  apply player_advance_returned in E. destruct E as (s' & _ & E).
  cbv zeta in E. subst p'. subst g. cbn [player.compute_sound player.now].
  cbn [player.retire player.now]. rewrite promote_now. cbn [player.now].
  set (t := tempo.global s').
  unfold player.promote, player.top, player.pop. cbn [player.roll].
  destruct (player.take_top (player.roll p)) as [[top popped]|] eqn:T;
    cbn [option_map fst].
  - apply take_top_some in T. destruct T as [Hperm Hmin].
    split; [exact Hperm|].
    split; [intros i Hi; rewrite Forall_forall in Hmin; now apply Hmin|].
    split; intro Hcmp.
    + apply leb_Q in Hcmp. rewrite Hcmp. cbn.
      now rewrite erase_ended_filter.
    + destruct (leb (player.start_beat top) (timing.beat t)) eqn:C.
      * apply leb_Q in C. contradiction.
      * cbn. now rewrite erase_ended_filter.
  - apply take_top_none in T. cbn. rewrite T.
    repeat split. now rewrite erase_ended_filter.
Qed.

Lemma one_promotion_per_tick_witness :
  let p := example.after_ticks example.chord 1 in
  let p' := example.after_ticks example.chord 2 in
  let g := timing.beat (tempo.global (player.now p')) in
  (forall i, spec.stays g i = false <-> player.end_beat i < g) /\
  match player.top (player.roll p) with
  | None =>
      player.roll p = [] /\
      player.roll p' = [] /\
      player.active p' = filter (spec.stays g) (player.active p)
  | Some top =>
      Permutation (player.roll p) (top :: player.pop (player.roll p)) /\
      (forall i, In i (player.roll p) ->
         player.start_beat top <= player.start_beat i) /\
      (player.start_beat top <= g ->
         player.roll p' = player.pop (player.roll p) /\
         player.active p' =
           filter (spec.stays g) (player.active p ++ [top])) /\
      (~ player.start_beat top <= g ->
         player.roll p' = player.roll p /\
         player.active p' = filter (spec.stays g) (player.active p))
  end.
Proof.
  apply (@one_promotion_per_tick (1 # 10)
           (example.after_ticks example.chord 1)
           (example.after_ticks example.chord 2)).
  vm_compute. reflexivity.
Defined.

(** ** The cursor in exact arithmetic *)

Ltac q_ops :=
  change (@add Q Number_Q) with Qplus in *;
  change (@sub Q Number_Q) with Qminus in *;
  change (@opp Q Number_Q) with Qopp in *;
  change (@zero Q Number_Q) with 0 in *.

Lemma tempo_of_fold {num : Type} `{Number num}
    (segs : list (notation.timing.timing num)) :
  forall s : tempo.tempo num,
    fold_left (fun s seg => tempo.add_timing seg s) segs s =
      tempo.mk_tempo (tempo.timings s ++ segs) (tempo.now s)
        (tempo.global s).
Proof.
  induction segs as [|seg segs IH]; intros [q n g]; cbn.
  - now rewrite app_nil_r.
  - rewrite IH. cbn. now rewrite <- app_assoc.
Qed.

Lemma tempo_of_state {num : Type} `{Number num}
    (segs : list (notation.timing.timing num)) :
  scenario.tempo_of segs =
    tempo.mk_tempo segs (timing.mk_time zero zero zero zero)
      (timing.mk_time zero zero zero zero).
Proof. unfold scenario.tempo_of. now rewrite tempo_of_fold. Qed.

Lemma cursor_ok_new (segs : list (notation.timing.timing Q)) :
  Forall spec.time_to_beat_ok segs ->
  spec.cursor_ok (scenario.tempo_of segs).
Proof.
  intro Hall. rewrite tempo_of_state. split; [exact Hall|]. cbn.
  destruct segs as [|t segs]; trivial.
  inversion Hall as [|? ? (Hfull & _ & H0 & _) _]; subst.
  repeat split; lra.
Qed.

Lemma cursor_ok_advance (dt : Q) (s s' : tempo.tempo Q) :
  spec.cursor_ok s ->
  spec.single_crossing dt s ->
  tempo.advance dt s = Returned tt s' ->
  spec.cursor_ok s'.
Proof.
  intros [Hall Hcur] Hone E.
  apply advance_returned in E.
  destruct E as (Hdt & t & rest & Hq & [[Hlt ->]|(Hle & t' & rest' & -> & ->)]).
  - rewrite Hq in Hcur. destruct Hcur as (H0 & Hfull & Hbeat).
    split; cbn; rewrite Hq; [now rewrite Hq in Hall|].
    q_ops. repeat split; try lra; try reflexivity.
  - unfold spec.single_crossing in Hone. rewrite Hq in Hcur, Hone, Hall.
    destruct Hcur as (H0 & Hfull & Hbeat). specialize (Hone Hle).
    inversion Hall as [|? ? _ Hall']; subst.
    split; cbn; [exact Hall'|].
    q_ops. repeat split; try lra; try reflexivity.
Qed.

(** In exact arithmetic a returning tick with [dt > 0] on a consistent
    cursor moves both the global time and the global beat strictly
    forward. *)
Lemma advance_increases (dt : Q) (s s' : tempo.tempo Q) :
  0 < dt ->
  spec.cursor_ok s ->
  spec.single_crossing dt s ->
  tempo.advance dt s = Returned tt s' ->
  timing.t (tempo.global s) < timing.t (tempo.global s') /\
  timing.beat (tempo.global s) < timing.beat (tempo.global s').
Proof.
  intros Hpos [Hall Hcur] Hone E.
  apply advance_returned in E.
  destruct E as (Hdt & t & rest & Hq & [[Hlt ->]|(Hle & t' & rest' & -> & ->)]).
  - rewrite Hq in Hcur, Hall. destruct Hcur as (H0 & Hfull & Hbeat).
    inversion Hall as [|? ? (_ & Hinc & _ & _) _]; subst.
    cbn. q_ops. split; [lra|].
    pose proof (Hinc (timing.t (tempo.now s)) (timing.t (tempo.now s) + dt)
                  ltac:(lra) ltac:(lra)) as [_ Hstrict].
    specialize (Hstrict ltac:(lra)). lra.
  - unfold spec.single_crossing in Hone. rewrite Hq in Hcur, Hone, Hall.
    destruct Hcur as (H0 & Hfull & Hbeat). specialize (Hone Hle).
    inversion Hall as [|? ? (_ & Hinc & _ & Hend) Hall']; subst.
    inversion Hall' as [|? ? (_ & Hinc' & Hzero' & _) _]; subst.
    cbn. q_ops. split; [lra|].
    remember (dt - (notation.timing.full_time t - timing.t (tempo.now s)))
      as nt eqn:Ent.
    assert (Hcarry : nt ==
              dt - (notation.timing.full_time t - timing.t (tempo.now s)))
      by (subst nt; reflexivity).
    clear Ent.
    pose proof (Hinc (timing.t (tempo.now s)) (notation.timing.full_time t)
                  ltac:(lra) ltac:(lra)) as [Hweak Hstrict].
    pose proof (Hinc' 0 nt ltac:(lra) ltac:(lra)) as [Hweak' Hstrict'].
    specialize (Hweak Hfull). specialize (Hweak' ltac:(lra)).
    destruct (Qlt_le_dec 0 nt) as [Hnt|Hnt].
    + specialize (Hstrict' Hnt). lra.
    + assert (Hin : timing.t (tempo.now s) < notation.timing.full_time t)
        by lra.
      specialize (Hstrict Hin). lra.
Qed.

Lemma constant_scaling (k d : Q) :
  0 < k -> 0 < d ->
  (forall a b, a <= b -> a * k / d <= b * k / d) /\
  (forall a b, a < b -> a * k / d < b * k / d) /\
  0 * k / d == 0 /\ d * k / d == k.
Proof.
  intros Hk Hd.
  assert (Hr : 0 < k / d) by (apply Qlt_shift_div_l; lra).
  assert (Hmul : forall a, a * k / d == a * (k / d)) by (intro a; field; lra).
  split; [|split; [|split]].
  - intros a b Hab. rewrite !Hmul. apply Qmult_le_compat_r; lra.
  - intros a b Hab. rewrite !Hmul. apply Qmult_lt_compat_r; lra.
  - field. lra.
  - field. lra.
Qed.

Lemma constant_time_to_beat_ok (beats seconds : Q) :
  0 < beats -> 0 < seconds ->
  spec.time_to_beat_ok (notation.timing.constant beats seconds).
Proof.
  intros Hb Hs.
  destruct (constant_scaling Hb Hs) as (Hle & Hlt & H0 & H1).
  unfold spec.time_to_beat_ok, spec.increasing_on. cbn.
  repeat split; auto. lra.
Qed.

Lemma constant_beat_to_time_ok (beats seconds : Q) :
  0 < beats -> 0 < seconds ->
  spec.beat_to_time_ok (notation.timing.constant beats seconds).
Proof.
  intros Hb Hs.
  destruct (constant_scaling Hs Hb) as (Hle & Hlt & H0 & H1).
  unfold spec.beat_to_time_ok, spec.increasing_on. cbn.
  repeat split; auto. lra.
Qed.

(** ** [tempo::beat_to_time] is monotone *)

Lemma segment_spans (seg : notation.timing.timing Q) :
  spec.beat_to_time_ok seg ->
  0 <= notation.timing.full_time seg /\
  (forall r, 0 <= r -> r <= notation.timing.duration seg ->
     0 <= notation.timing.beat_to_time seg r /\
     notation.timing.beat_to_time seg r <= notation.timing.full_time seg).
Proof.
  intros (Hdur & Hinc & H0 & Hend).
  pose proof (Hinc 0 (notation.timing.duration seg) ltac:(lra) ltac:(lra))
    as [Hspan _].
  specialize (Hspan Hdur). split; [lra|].
  intros r Hr0 Hr1.
  pose proof (Hinc 0 r ltac:(lra) Hr1) as [Hlo _].
  pose proof (Hinc r (notation.timing.duration seg) Hr0 ltac:(lra))
    as [Hhi _].
  specialize (Hlo Hr0). specialize (Hhi Hr1). lra.
Qed.

Lemma walk_step (seg : notation.timing.timing Q)
    (l : list (notation.timing.timing Q)) (t r : Q) :
  (r <= notation.timing.duration seg /\
   tempo.walk (seg :: l) t r =
     inl (t + notation.timing.beat_to_time seg r)) \/
  (notation.timing.duration seg < r /\
   tempo.walk (seg :: l) t r =
     tempo.walk l (t + notation.timing.full_time seg)
       (r - notation.timing.duration seg)).
Proof.
  cbn [tempo.walk]. destruct (leb r (notation.timing.duration seg)) eqn:E.
  - left. split; [now apply leb_Q | reflexivity].
  - right. split; [now apply leb_Q_false | reflexivity].
Qed.

Lemma walk_lower (l : list (notation.timing.timing Q)) :
  Forall spec.beat_to_time_ok l ->
  forall t r x, 0 <= r -> tempo.walk l t r = inl x -> t <= x.
Proof.
  induction 1 as [|seg l Hseg _ IH]; intros t r x Hr; [discriminate|].
  destruct (segment_spans Hseg) as [Hfull Hin].
  destruct (walk_step seg l t r) as [[Hle ->]|[Hlt ->]].
  - intros [= <-]. destruct (Hin r Hr Hle). lra.
  - intro E. apply IH in E; lra.
Qed.

Lemma walk_monotone (l : list (notation.timing.timing Q)) :
  Forall spec.beat_to_time_ok l ->
  forall t r1 r2 x1 x2,
    0 <= r1 -> r1 <= r2 ->
    tempo.walk l t r1 = inl x1 ->
    tempo.walk l t r2 = inl x2 ->
    x1 <= x2.
Proof.
  induction 1 as [|seg l Hseg Hall IH]; intros t r1 r2 x1 x2 H0 H12;
    [discriminate|].
  destruct (segment_spans Hseg) as [Hfull Hin].
  destruct Hseg as (_ & Hinc & _ & _).
  destruct (walk_step seg l t r1) as [[Hle1 ->]|[Hlt1 ->]];
    destruct (walk_step seg l t r2) as [[Hle2 ->]|[Hlt2 ->]].
  - intros [= <-] [= <-].
    pose proof (Hinc r1 r2 H0 Hle2) as [Hmono _].
    specialize (Hmono H12). lra.
  - intros [= <-] E2.
    apply (walk_lower Hall) in E2; [|lra].
    destruct (Hin r1 H0 Hle1). lra.
  - lra.
  - intros E1 E2. eapply IH; [| |exact E1|exact E2]; lra.
Qed.

(** ** Order under rounding *)

Section Rounded.
Context {num : Type} `{Number num}.
Hypothesis L : rounded.laws.

Local Open Scope num_scope.

Lemma le_of_not_le (a b : num) : (a <=? b) = false -> rounded.le b a.
Proof.
  intro E. destruct (rounded.law_total L a b) as [Hab|Hba]; trivial.
  unfold rounded.le in Hab. congruence.
Qed.

Lemma sub_nonneg (a b : num) :
  rounded.le a b -> rounded.le zero (b - a).
Proof.
  intro Hab. apply (rounded.law_trans L) with (b := a - a).
  - apply (rounded.law_sub_self L).
  - apply (rounded.law_sub L); [exact Hab | apply (rounded.law_refl L)].
Qed.

Lemma add_nonneg (t x : num) :
  rounded.le zero x -> rounded.le t (t + x).
Proof.
  intro Hx. apply (rounded.law_trans L) with (b := t + zero).
  - apply (rounded.law_add_zero L).
  - now apply (rounded.law_add L).
Qed.

Lemma segment_spans_rounded (seg : notation.timing.timing num) :
  rounded.beat_to_time_ok seg ->
  rounded.le zero (notation.timing.full_time seg) /\
  (forall r, rounded.le zero r ->
     rounded.le r (notation.timing.duration seg) ->
     rounded.le zero (notation.timing.beat_to_time seg r) /\
     rounded.le (notation.timing.beat_to_time seg r)
       (notation.timing.full_time seg)).
Proof.
  intros (Hdur & Hinc & [_ H0] & [Hend _]).
  assert (Hin : forall r, rounded.le zero r ->
            rounded.le r (notation.timing.duration seg) ->
            rounded.le zero (notation.timing.beat_to_time seg r) /\
            rounded.le (notation.timing.beat_to_time seg r)
              (notation.timing.full_time seg)).
  { intros r Hr0 Hr1. split.
    - apply (rounded.law_trans L) with (1 := H0).
      apply Hinc; trivial. apply (rounded.law_refl L).
    - apply (rounded.law_trans L) with (2 := Hend).
      apply Hinc; trivial. apply (rounded.law_refl L). }
  split; trivial.
  destruct (Hin zero (rounded.law_refl L zero) Hdur) as [Hlo Hhi].
  exact (rounded.law_trans L Hlo Hhi).
Qed.

Lemma walk_lower_rounded (l : list (notation.timing.timing num)) :
  Forall rounded.beat_to_time_ok l ->
  forall t r x,
    rounded.le zero r -> tempo.walk l t r = inl x -> rounded.le t x.
Proof.
  induction 1 as [|seg l Hseg _ IH]; intros t r x Hr; [discriminate|].
  destruct (segment_spans_rounded Hseg) as [Hfull Hin].
  cbn [tempo.walk].
  destruct (r <=? notation.timing.duration seg) eqn:Hcmp.
  - intros [= <-]. apply add_nonneg. now apply Hin.
  - intro E. apply le_of_not_le in Hcmp.
    apply (rounded.law_trans L) with (b := t + notation.timing.full_time seg).
    + now apply add_nonneg.
    + eapply IH; [|exact E]. now apply sub_nonneg.
Qed.

Lemma walk_monotone_rounded (l : list (notation.timing.timing num)) :
  Forall rounded.beat_to_time_ok l ->
  forall t r1 r2 x1 x2,
    rounded.le zero r1 -> rounded.le r1 r2 ->
    tempo.walk l t r1 = inl x1 ->
    tempo.walk l t r2 = inl x2 ->
    rounded.le x1 x2.
Proof.
  induction 1 as [|seg l Hseg Hall IH]; intros t r1 r2 x1 x2 H0 H12;
    [discriminate|].
  destruct (segment_spans_rounded Hseg) as [Hfull Hin].
  destruct Hseg as (_ & Hinc & _ & _).
  cbn [tempo.walk].
  destruct (r1 <=? notation.timing.duration seg) eqn:C1;
    destruct (r2 <=? notation.timing.duration seg) eqn:C2.
  - intros [= <-] [= <-]. apply (rounded.law_add L). now apply Hinc.
  - intros [= <-] E2. apply le_of_not_le in C2.
    apply (rounded.law_trans L) with (b := t + notation.timing.full_time seg).
    + apply (rounded.law_add L). now apply Hin.
    + eapply (walk_lower_rounded Hall); [|exact E2]. now apply sub_nonneg.
  - assert (Hle : rounded.le r1 (notation.timing.duration seg))
      by exact (rounded.law_trans L H12 C2).
    unfold rounded.le in Hle. congruence.
  - intros E1 E2. apply le_of_not_le in C1.
    eapply IH; [| |exact E1|exact E2].
    + now apply sub_nonneg.
    + apply (rounded.law_sub L); [exact H12 | apply (rounded.law_refl L)].
Qed.

Lemma local_beat_nonneg (g nb beat : num) :
  rounded.le zero nb -> rounded.le g beat ->
  rounded.le zero (beat - (g - nb)).
Proof.
  intros Hnb Hg. apply sub_nonneg.
  apply (rounded.law_trans L) with (2 := Hg).
  apply (rounded.law_trans L) with (b := g - zero).
  - apply (rounded.law_sub L); [apply (rounded.law_refl L) | exact Hnb].
  - apply (rounded.law_sub_zero L).
Qed.

(** C6, amended.  On a tempo state whose local beat is not negative and
    whose segments have a non-negative duration and a [beat_to_time]
    increasing on [[0, duration]] and exact at both ends, two queries
    [b1 <= b2] not before [global.beat] that both return give times in the
    same order; in every arithmetic whose sums and differences are
    monotone, rounded or not. *)
Theorem beat_to_time_monotone (s s1 s2 : tempo.tempo num)
    (b1 b2 r1 r2 : num) :
  Forall rounded.beat_to_time_ok (tempo.timings s) ->
  rounded.le zero (timing.beat (tempo.now s)) ->
  rounded.le (timing.beat (tempo.global s)) b1 ->
  rounded.le b1 b2 ->
  tempo.beat_to_time b1 s = Returned r1 s1 ->
  tempo.beat_to_time b2 s = Returned r2 s2 ->
  rounded.le r1 r2.
Proof.
  intros Hall Hnow Hg H12. unfold tempo.beat_to_time, throw, ret.
  destruct (b1 <? _); [discriminate|].
  destruct (b2 <? _); [discriminate|].
  destruct (tempo.walk _ _ (b1 - _)) as [x1|] eqn:E1; [|discriminate].
  destruct (tempo.walk _ _ (b2 - _)) as [x2|] eqn:E2; [|discriminate].
  intros [= <- _] [= <- _].
  eapply (walk_monotone_rounded Hall); [| |exact E1|exact E2].
  - now apply local_beat_nonneg.
  - apply (rounded.law_sub L); [exact H12 | apply (rounded.law_refl L)].
Qed.

(** A time that [beat_to_time] returns on such a state is never before
    [global.t]. *)
Theorem beat_to_time_not_before_now (s s1 : tempo.tempo num)
    (beat r : num) :
  Forall rounded.beat_to_time_ok (tempo.timings s) ->
  rounded.le zero (timing.beat (tempo.now s)) ->
  rounded.le (timing.beat (tempo.global s)) beat ->
  tempo.beat_to_time beat s = Returned r s1 ->
  rounded.le (timing.t (tempo.global s)) r.
Proof.
  intros Hall Hnow Hg. unfold tempo.beat_to_time, throw, ret.
  destruct (beat <? _); [discriminate|].
  destruct (tempo.walk _ _ _) as [x|] eqn:E; [|discriminate].
  intros [= <- _].
  eapply (walk_lower_rounded Hall); [|exact E].
  now apply local_beat_nonneg.
Qed.

Lemma advance_returned_rounded (dt : num) (s s' : tempo.tempo num) :
  tempo.advance dt s = Returned tt s' ->
  rounded.le zero dt /\
  exists t rest, tempo.timings s = t :: rest /\
    (((notation.timing.full_time t <=? timing.t (tempo.now s) + dt) = false
      /\ s' = spec.stayed dt s t) \/
     ((notation.timing.full_time t <=? timing.t (tempo.now s) + dt) = true
      /\ exists t' rest', rest = t' :: rest' /\
           s' = spec.switched dt s t t' rest)).
Proof.
  unfold tempo.advance, bind, assert.
  destruct (zero <=? dt) eqn:Hdt; [|discriminate].
  split; [exact Hdt|].
  destruct (tempo.timings s) as [|t rest] eqn:Hq; [discriminate|].
  exists t, rest. split; trivial. revert H0. cbn [timing.t].
  destruct (notation.timing.full_time t <=? timing.t (tempo.now s) + dt)
    eqn:Hcmp.
  - destruct rest as [|t' rest']; [discriminate|].
    intros [= <-]. right. split; trivial. exists t', rest'. now split.
  - intros [= <-]. left. split; trivial.
    unfold spec.stayed. now rewrite Hq.
Qed.

(** C7, amended.  On a tempo state whose local cursor is consistent with
    the front segment, with [time_to_beat] of every segment increasing on
    [[0, full_time()]] and exact at both ends, an [advance(dt)] that
    returns, crosses at most one segment boundary and carries a
    non-negative time over it leaves [get().t] and [get().beat] not
    smaller than they were; in every arithmetic whose sums and differences
    are monotone, rounded or not. *)
Theorem advance_not_backwards (dt : num) (s s' : tempo.tempo num)
    (g g' : timing.time num) :
  Forall rounded.time_to_beat_ok (tempo.timings s) ->
  rounded.cursor_ok s ->
  rounded.carries_over dt s ->
  tempo.get s = Returned g s ->
  tempo.advance dt s = Returned tt s' ->
  tempo.get s' = Returned g' s' ->
  rounded.le (timing.t g) (timing.t g') /\
  rounded.le (timing.beat g) (timing.beat g').
Proof.
  intros Hall Hcur Hone [= <-] E [= <-].
  apply advance_returned_rounded in E.
  destruct E as (Hdt & t & rest & Hq & [[Hcmp ->]|(Hcmp & t' & rest' & -> & ->)]).
  - unfold rounded.cursor_ok in Hcur. rewrite Hq in Hcur, Hall.
    destruct Hcur as (H0 & Hfull & [Hbeat _]).
    inversion Hall as [|? ? (_ & Hinc & _ & _) _]; subst.
    unfold spec.stayed. rewrite Hq. cbn.
    split; [now apply add_nonneg|].
    apply add_nonneg, sub_nonneg.
    apply (rounded.law_trans L) with (1 := Hbeat).
    apply Hinc; trivial.
    + now apply add_nonneg.
    + now apply le_of_not_le.
  - unfold rounded.cursor_ok, rounded.carries_over in Hcur, Hone.
    rewrite Hq in Hcur, Hone, Hall.
    destruct Hcur as (H0 & Hfull & [Hbeat _]).
    destruct (Hone Hcmp) as [Hcarry Hnext].
    inversion Hall as [|? ? (_ & Hinc & _ & [Hend _]) Hall']; subst.
    inversion Hall' as [|? ? (_ & Hinc' & [_ Hzero'] & _) _]; subst.
    unfold spec.switched. cbn.
    split; [now apply add_nonneg|].
    apply add_nonneg.
    assert (Hleft : rounded.le zero
              (notation.timing.duration t - timing.beat (tempo.now s))).
    { apply sub_nonneg.
      apply (rounded.law_trans L) with (1 := Hbeat).
      apply (rounded.law_trans L) with (2 := Hend).
      apply Hinc; trivial. apply (rounded.law_refl L). }
    assert (Hnew : rounded.le zero
              (notation.timing.time_to_beat t'
                 (dt - (notation.timing.full_time t
                        - timing.t (tempo.now s))))).
    { apply (rounded.law_trans L) with (1 := Hzero').
      apply Hinc'; trivial. apply (rounded.law_refl L). }
    apply (rounded.law_trans L) with (1 := Hnew).
    apply (rounded.law_trans L)
      with (b := notation.timing.time_to_beat t'
                   (dt - (notation.timing.full_time t
                          - timing.t (tempo.now s))) - zero).
    + apply (rounded.law_sub_zero L).
    + apply (rounded.law_sub L); [apply (rounded.law_refl L)|].
      now apply (rounded.law_opp L).
Qed.

End Rounded.

(** Exact rationals satisfy the laws. *)
Lemma laws_Q : rounded.laws (num := Q).
Proof.
  constructor; unfold rounded.same, rounded.le; intros;
    repeat match goal with
           | Hle : leb _ _ = true |- _ => apply leb_Q in Hle
           end; q_ops.
  - apply leb_Q. lra.
  - apply leb_Q. lra.
  - destruct (Qlt_le_dec b a) as [Hlt|Hle]; [right | left]; apply leb_Q; lra.
  - apply leb_Q. q_ops. lra.
  - apply leb_Q. q_ops. lra.
  - apply leb_Q. q_ops. lra.
  - apply leb_Q. q_ops. lra.
  - split; apply leb_Q; q_ops; lra.
  - apply leb_Q. q_ops. lra.
Qed.

Lemma constant_rounded_ok (beats seconds : Q) :
  0 < beats -> 0 < seconds ->
  rounded.beat_to_time_ok (notation.timing.constant beats seconds) /\
  rounded.time_to_beat_ok (notation.timing.constant beats seconds).
Proof.
  intros Hb Hs.
  destruct (constant_scaling Hs Hb) as (Hle & _ & H0 & H1).
  destruct (constant_scaling Hb Hs) as (Hle' & _ & H0' & H1').
  unfold rounded.beat_to_time_ok, rounded.time_to_beat_ok,
    rounded.increasing_on, rounded.same, rounded.le.
  cbn [notation.timing.constant notation.timing.duration
       notation.timing.full_time notation.timing.beat_to_time
       notation.timing.time_to_beat].
  change (@mul Q Number_Q) with Qmult. change (@div Q Number_Q) with Qdiv.
  q_ops.
  repeat split; try (apply leb_Q; lra);
    intros a b _ Hab _; apply leb_Q in Hab; apply leb_Q; auto.
Qed.

Lemma kinked_beat_to_time_ok (beats seconds high : Q) :
  0 < beats -> 0 < seconds ->
  spec.beat_to_time_ok (counter.kinked beats seconds high).
Proof.
  intros Hb Hs.
  destruct (constant_scaling Hs Hb) as (Hle & Hlt & H0 & H1).
  assert (Hbranch : forall x, 0 <= x ->
            notation.timing.beat_to_time (counter.kinked beats seconds high) x
            = x * seconds / beats).
  { intros x Hx. cbn. apply ltb_Q_false in Hx. cbn in Hx. now rewrite Hx. }
  split; [cbn; lra|]. split; [|split].
  - intros a b Ha Hbd. split; intro Hab;
      rewrite (Hbranch a), (Hbranch b); auto; lra.
  - rewrite Hbranch; [exact H0 | lra].
  - rewrite Hbranch; [exact H1 | cbn; lra].
Qed.

(** C6 as stated fails.  In exact arithmetic, on a state whose local beat
    is negative and whose one segment has [beat_to_time] increasing on
    [[0, duration]] and exact at both ends, [beat_to_time(0)] lies after
    [beat_to_time(1)].  In [double] twelve ticks of 0.1 s over a segment
    of 1.2 s reach such a state: the local beat comes out below zero, and
    there [beat_to_time(g)] is 101.2 and [beat_to_time(g + 1)]
    1.2999999999999998, for [g] the global beat. *)
Lemma beat_to_time_order_fails :
  (spec.beat_to_time_ok (counter.kinked 4 2 100) /\
   tempo.timings counter.behind = [counter.kinked 4 2 100] /\
   exists r1 r2,
     timing.beat (tempo.global counter.behind) <= 0 /\
     0 <= 1 /\
     tempo.beat_to_time 0 counter.behind = Returned r1 counter.behind /\
     tempo.beat_to_time 1 counter.behind = Returned r2 counter.behind /\
     r2 < r1) /\
  (exists s,
     trace.advances counter.twelve_ticks counter.kinked_song
       = Returned tt s /\
     PrimFloat.ltb (timing.beat (tempo.now s)) 0 = true /\
     notation.timing.beat_to_time
       (counter.kinked 12%float counter.seconds_1_2 100%float) 0%float
       = 0%float /\
     notation.timing.beat_to_time
       (counter.kinked 12%float counter.seconds_1_2 100%float) 12%float
       = counter.seconds_1_2 /\
     let g := timing.beat (tempo.global s) in
     PrimFloat.leb g (g + 1)%float = true /\
     tempo.beat_to_time g s = Returned 0x1.94ccccccccccdp+6%float s /\
     tempo.beat_to_time (g + 1)%float s
       = Returned 0x1.4ccccccccccccp+0%float s).
Proof.
  split.
  - split; [apply kinked_beat_to_time_ok; reflexivity|].
    split; [reflexivity|].
    do 2 eexists. split; [vm_compute; discriminate|].
    split; [vm_compute; discriminate|].
    split; [vm_compute; reflexivity|].
    split; [vm_compute; reflexivity|].
    vm_compute. reflexivity.
  - eexists. split; [vm_compute; reflexivity|].
    repeat split; vm_compute; reflexivity.
Qed.

Lemma beat_to_time_monotone_witness :
  exists r1 r2,
    tempo.beat_to_time 5 example.two_segments
      = Returned r1 example.two_segments /\
    tempo.beat_to_time 6 example.two_segments
      = Returned r2 example.two_segments /\
    rounded.le r1 r2.
Proof.
  do 2 eexists.
  split; [vm_compute; reflexivity|].
  split; [vm_compute; reflexivity|].
  apply (@beat_to_time_monotone Q _ laws_Q example.two_segments
           example.two_segments example.two_segments 5 6).
  - unfold example.two_segments. rewrite tempo_of_state.
    apply Forall_cons; [apply constant_rounded_ok; reflexivity|].
    apply Forall_cons; [apply constant_rounded_ok; reflexivity|].
    apply Forall_nil.
  - vm_compute. reflexivity.
  - vm_compute. reflexivity.
  - vm_compute. reflexivity.
  - vm_compute. reflexivity.
  - vm_compute. reflexivity.
Defined.

(** C7 as stated fails.  In exact arithmetic, after a tick of 3.5 s has
    run over two boundaries of segments of 2 s, 1 s and 1 s, a tick of
    0.1 s that crosses one boundary returns with the global beat moved
    from 10 back to 43/5.  In [double] a tick of [2^-60] s after one of
    1 s returns with [get().t] and [get().beat] unchanged, and over
    segments of 1 beat and 1024 beats a tick across one boundary returns
    with the global beat moved back. *)
Lemma advance_not_strictly_forward :
  (exists s1 s2,
     Forall spec.time_to_beat_ok (tempo.timings counter.three_segments) /\
     tempo.advance (7 # 2) counter.three_segments = Returned tt s1 /\
     0 < 1 # 10 /\
     spec.single_crossing (1 # 10) s1 /\
     tempo.advance (1 # 10) s1 = Returned tt s2 /\
     timing.beat (tempo.global s1) == 10 /\
     timing.beat (tempo.global s2) == 43 # 5) /\
  (exists s1 s2,
     tempo.advance 1%float example.two_segments_double = Returned tt s1 /\
     PrimFloat.ltb 0 0x1p-60 = true /\
     tempo.advance 0x1p-60%float s1 = Returned tt s2 /\
     tempo.timings s2 = tempo.timings s1 /\
     timing.t (tempo.global s2) = timing.t (tempo.global s1) /\
     timing.beat (tempo.global s2) = timing.beat (tempo.global s1)) /\
  (exists s1 s2,
     tempo.advance 0x1.fffffffffffffp-1%float counter.steep
       = Returned tt s1 /\
     PrimFloat.ltb 0 0x1.8p-54 = true /\
     tempo.advance 0x1.8p-54%float s1 = Returned tt s2 /\
     List.length (tempo.timings s2) = 1%nat /\
     PrimFloat.ltb (timing.beat (tempo.global s2))
       (timing.beat (tempo.global s1)) = true).
Proof.
  split; [|split].
  - do 2 eexists. split.
    { unfold counter.three_segments. rewrite tempo_of_state. cbn.
      repeat (apply Forall_cons;
              [apply constant_time_to_beat_ok; reflexivity|]).
      apply Forall_nil. }
    split; [vm_compute; reflexivity|].
    split; [reflexivity|].
    split; [vm_compute; intros _; reflexivity|].
    split; [vm_compute; reflexivity|].
    split; vm_compute; reflexivity.
  - do 2 eexists. split; [vm_compute; reflexivity|].
    repeat split; vm_compute; reflexivity.
  - do 2 eexists. split; [vm_compute; reflexivity|].
    repeat split; vm_compute; reflexivity.
Qed.

Lemma advance_not_backwards_witness :
  rounded.le (timing.t (tempo.global example.two_segments))
    (timing.t (tempo.global example.two_segments_later)) /\
  rounded.le (timing.beat (tempo.global example.two_segments))
    (timing.beat (tempo.global example.two_segments_later)).
Proof.
  apply (@advance_not_backwards Q _ laws_Q (5 # 2) example.two_segments
           example.two_segments_later).
  - unfold example.two_segments. rewrite tempo_of_state.
    apply Forall_cons; [apply constant_rounded_ok; reflexivity|].
    apply Forall_cons; [apply constant_rounded_ok; reflexivity|].
    apply Forall_nil.
  - vm_compute. repeat split.
  - vm_compute. intros _. split; reflexivity.
  - reflexivity.
  - vm_compute. reflexivity.
  - reflexivity.
Defined.

Lemma beat_to_time_not_before_now_witness :
  exists r,
    tempo.beat_to_time 6 example.two_segments
      = Returned r example.two_segments /\
    rounded.le (timing.t (tempo.global example.two_segments)) r.
Proof.
  eexists. split; [vm_compute; reflexivity|].
  apply (@beat_to_time_not_before_now Q _ laws_Q example.two_segments
           example.two_segments 6).
  - unfold example.two_segments. rewrite tempo_of_state.
    apply Forall_cons; [apply constant_rounded_ok; reflexivity|].
    apply Forall_cons; [apply constant_rounded_ok; reflexivity|].
    apply Forall_nil.
  - vm_compute. reflexivity.
  - vm_compute. reflexivity.
  - vm_compute. reflexivity.
Defined.

(** * Further properties of the engine *)

(** ** The four outcomes of [tempo::advance] *)

Lemma advance_cases (dt : Q) (s : tempo.tempo Q) :
  (dt < 0 /\
   tempo.advance dt s = Aborted "must be greater than zero!") \/
  (0 <= dt /\ tempo.timings s = [] /\
   tempo.advance dt s = Undefined "front() of an empty std::list") \/
  (0 <= dt /\
   (exists t, tempo.timings s = [t] /\
      notation.timing.full_time t <= timing.t (tempo.now s) + dt) /\
   exists s', tempo.advance dt s =
                Thrown (end_of_song "Ran out of timing specs!") s') \/
  (0 <= dt /\
   (exists t rest, tempo.timings s = t :: rest /\
      (timing.t (tempo.now s) + dt < notation.timing.full_time t \/
       rest <> [])) /\
   exists s', tempo.advance dt s = Returned tt s').
Proof.
  destruct (Qlt_le_dec dt 0) as [Hneg|Hdt].
  - left. split; trivial. unfold tempo.advance, bind, assert.
    apply leb_Q_false in Hneg. cbn in Hneg |- *. now rewrite Hneg.
  - right. destruct (tempo.timings s) as [|t rest] eqn:Hq.
    + left. split; trivial. split; trivial.
      rewrite advance_on_empty_queue; trivial.
      apply leb_Q in Hdt. cbn in Hdt |- *. now rewrite Hdt.
    + right.
      destruct (Qlt_le_dec (timing.t (tempo.now s) + dt)
                  (notation.timing.full_time t)) as [Hlt|Hle].
      * right. split; trivial. split.
        -- exists t, rest. split; trivial. now left.
        -- eexists. eapply advance_stays; eassumption.
      * destruct rest as [|t' rest'].
        -- left. split; trivial. split; [exists t; now split|].
           unfold tempo.advance, bind, assert.
           apply leb_Q in Hdt. cbn in Hdt |- *. rewrite Hdt, Hq. cbn.
           apply leb_Q in Hle. cbn in Hle. rewrite Hle. eexists. reflexivity.
        -- right. split; trivial. split.
           ++ exists t, (t' :: rest'). split; trivial. right. discriminate.
           ++ eexists. eapply advance_switches; eassumption.
Qed.

(** [advance(dt)] stops on its assertion exactly when [dt < 0]; reads the
    front of an empty list exactly when [dt >= 0] and the queue is empty;
    throws [end_of_song] exactly when [dt >= 0], the queue holds a single
    segment and the local time with [dt] added reaches its [full_time()];
    and returns exactly when [dt >= 0], the queue is not empty, and either
    the front segment is not finished or another one waits behind it. *)
Theorem advance_outcomes (dt : Q) (s : tempo.tempo Q) :
  (tempo.advance dt s = Aborted "must be greater than zero!" <-> dt < 0) /\
  (tempo.advance dt s = Undefined "front() of an empty std::list" <->
     0 <= dt /\ tempo.timings s = []) /\
  ((exists s', tempo.advance dt s =
                 Thrown (end_of_song "Ran out of timing specs!") s') <->
     0 <= dt /\
     exists t, tempo.timings s = [t] /\
       notation.timing.full_time t <= timing.t (tempo.now s) + dt) /\
  ((exists s', tempo.advance dt s = Returned tt s') <->
     0 <= dt /\
     exists t rest, tempo.timings s = t :: rest /\
       (timing.t (tempo.now s) + dt < notation.timing.full_time t \/
        rest <> [])).
Proof.
  destruct (advance_cases dt s)
    as [[Hneg E]|[(Hdt & Hq & E)|[(Hdt & Hc & s1 & E)|(Hdt & Hc & s1 & E)]]];
    rewrite E.
  - split; [split; [trivial | reflexivity]|].
    split; [split; [discriminate | intros [? _]; lra]|].
    split; (split; [intros [s' E']; discriminate | intros [? _]; lra]).
  - split; [split; [discriminate | lra]|].
    split; [split; [now split | reflexivity]|].
    split; (split; [intros [s' E']; discriminate|]).
    + intros [_ (t & Hq' & _)]. congruence.
    + intros [_ (t & rest & Hq' & _)]. congruence.
  - split; [split; [discriminate | lra]|].
    split; [split; [discriminate|]|].
    { intros [_ Hq]. destruct Hc as (t & Hq' & _). congruence. }
    split.
    + split; [now split | intros _; now exists s1].
    + split; [intros [s' E']; discriminate|].
      intros [_ (t & rest & Hq & Hor)]. destruct Hc as (t0 & Hq0 & Hle).
      rewrite Hq0 in Hq. injection Hq as <- <-.
      destruct Hor as [Hlt|Hne]; [lra | congruence].
  - split; [split; [discriminate | lra]|].
    split; [split; [discriminate|]|].
    { intros [_ Hq]. destruct Hc as (t & rest & Hq' & _). congruence. }
    split.
    + split; [intros [s' E']; discriminate|].
      intros [_ (t & Hq & Hle)]. destruct Hc as (t0 & rest & Hq0 & Hor).
      rewrite Hq0 in Hq. injection Hq as <- ->.
      destruct Hor as [Hlt|Hne]; [lra | congruence].
    + split; [now split | intros _; now exists s1].
Qed.

(** ** [tempo::advance] inside a segment *)

(** An [advance(dt)], [dt >= 0], that leaves the local time short of
    [full_time()] of the front segment returns, keeps the queue, adds [dt]
    to both times, sets the local beat to the front segment's
    [time_to_beat] of the new local time, and adds the change of the local
    beat to the global beat; both cursors record [dt] and that change as
    their deltas. *)
Theorem advance_within_segment (dt : Q) (s : tempo.tempo Q)
    (t : notation.timing.timing Q)
    (rest : list (notation.timing.timing Q)) :
  0 <= dt ->
  tempo.timings s = t :: rest ->
  timing.t (tempo.now s) + dt < notation.timing.full_time t ->
  exists s',
    tempo.advance dt s = Returned tt s' /\
    tempo.timings s' = t :: rest /\
    timing.t (tempo.now s') = timing.t (tempo.now s) + dt /\
    timing.t (tempo.global s') = timing.t (tempo.global s) + dt /\
    timing.beat (tempo.now s') =
      notation.timing.time_to_beat t (timing.t (tempo.now s')) /\
    timing.dbeat (tempo.now s') =
      timing.beat (tempo.now s') - timing.beat (tempo.now s) /\
    timing.beat (tempo.global s') =
      timing.beat (tempo.global s) + timing.dbeat (tempo.now s') /\
    timing.dbeat (tempo.global s') = timing.dbeat (tempo.now s') /\
    timing.dt (tempo.now s') = dt /\ timing.dt (tempo.global s') = dt.
Proof.
  intros Hdt Hq Hlt. exists (spec.stayed dt s t).
  split; [eapply advance_stays; eassumption|].
  unfold spec.stayed. rewrite Hq. cbn. repeat split; reflexivity.
Qed.

Lemma advance_within_segment_witness :
  exists s',
    tempo.advance (1 # 10) example.two_segments = Returned tt s' /\
    tempo.timings s' = example.segments_AB /\
    timing.t (tempo.now s') = 0 + (1 # 10) /\
    timing.t (tempo.global s') = 0 + (1 # 10) /\
    timing.beat (tempo.now s') =
      notation.timing.time_to_beat (notation.timing.constant 4 2)
        (timing.t (tempo.now s')) /\
    timing.dbeat (tempo.now s') = timing.beat (tempo.now s') - 0 /\
    timing.beat (tempo.global s') = 0 + timing.dbeat (tempo.now s') /\
    timing.dbeat (tempo.global s') = timing.dbeat (tempo.now s') /\
    timing.dt (tempo.now s') = 1 # 10 /\
    timing.dt (tempo.global s') = 1 # 10.
Proof.
  apply (@advance_within_segment (1 # 10) example.two_segments
           (notation.timing.constant 4 2) [notation.timing.constant 4 1]).
  - vm_compute. discriminate.
  - reflexivity.
  - vm_compute. reflexivity.
Defined.

(** ** What [end_of_song] leaves behind *)

(** When [advance(dt)] throws, the exception is [end_of_song], the queue
    held one segment and is now empty, the global time has already been
    advanced by [dt] while the global beat and its delta are as before,
    and the local cursor holds the time carried over past the segment with
    its beat untouched. *)
Theorem advance_thrown_state {num : Type} `{Number num} (dt : num)
    (s s' : tempo.tempo num) (e : exn num) :
  tempo.advance dt s = Thrown e s' ->
  e = end_of_song "Ran out of timing specs!" /\
  tempo.timings s' = [] /\
  tempo.global s' =
    timing.mk_time (add (timing.t (tempo.global s)) dt) dt
      (timing.beat (tempo.global s)) (timing.dbeat (tempo.global s)) /\
  exists t,
    tempo.timings s = [t] /\
    tempo.now s' =
      timing.mk_time
        (sub dt (sub (notation.timing.full_time t) (timing.t (tempo.now s))))
        dt (timing.beat (tempo.now s)) (timing.dbeat (tempo.now s)).
Proof.
  unfold tempo.advance, bind, assert.
  destruct (leb zero dt); [|discriminate].
  destruct (tempo.timings s) as [|t [|t' rest]]; try discriminate;
    destruct (leb _ _); try discriminate.
  intros [= <- <-]. cbn. repeat split. exists t. now split.
Qed.

Lemma advance_thrown_state_witness :
  end_of_song "Ran out of timing specs!" =
    end_of_song (num := Q) "Ran out of timing specs!" /\
  tempo.timings instance.one_segment_ended = [] /\
  tempo.global instance.one_segment_ended =
    timing.mk_time (0 + 2) 2 0 0 /\
  exists t,
    tempo.timings example.one_segment = [t] /\
    tempo.now instance.one_segment_ended =
      timing.mk_time (2 - (notation.timing.full_time t - 0)) 2 0 0.
Proof.
  assert (E : tempo.advance 2 example.one_segment =
              Thrown (end_of_song "Ran out of timing specs!")
                instance.one_segment_ended)
    by (vm_compute; reflexivity).
  exact (@advance_thrown_state Q _ 2 example.one_segment
           instance.one_segment_ended
           (end_of_song "Ran out of timing specs!") E).
Defined.

(** ** The queue over a run of ticks *)

Lemma advance_pops_at_most_one {num : Type} `{Number num} (dt : num)
    (s s' : tempo.tempo num) :
  tempo.advance dt s = Returned tt s' ->
  tempo.timings s' <> [] /\
  (tempo.timings s = tempo.timings s' \/
   exists t, tempo.timings s = t :: tempo.timings s').
Proof.
  unfold tempo.advance, bind, assert.
  destruct (leb zero dt); [|discriminate].
  destruct (tempo.timings s) as [|t rest] eqn:Hq; [discriminate|].
  cbn [timing.t].
  destruct (leb (notation.timing.full_time t) _).
  - destruct rest as [|t' rest']; [discriminate|].
    intros [= <-]. cbn. split; [discriminate|]. right. now exists t.
  - intros [= <-]. cbn. split; [discriminate|]. now left.
Qed.

Lemma advances_pop_at_most_one_each {num : Type} `{Number num}
    (dts : list num) :
  forall s s' : tempo.tempo num,
    trace.advances dts s = Returned tt s' ->
    (dts <> [] -> tempo.timings s' <> []) /\
    exists consumed,
      tempo.timings s = consumed ++ tempo.timings s' /\
      (List.length consumed <= List.length dts)%nat.
Proof.
  induction dts as [|dt dts IH]; intros s s'; cbn [trace.advances].
  - unfold ret. intros [= <-]. split; [congruence|].
    exists []. split; [reflexivity | cbn; lia].
  - unfold bind.
    destruct (tempo.advance dt s) as [[] s1| | |] eqn:E; try discriminate.
    intro Erest. apply advance_pops_at_most_one in E.
    destruct E as [Hne Hstep].
    destruct (IH s1 s' Erest) as [Hne' (consumed & Hq & Hlen)].
    split.
    + intros _. destruct dts as [|dt' dts'].
      * cbn in Erest. unfold ret in Erest. injection Erest as <-. exact Hne.
      * apply Hne'. discriminate.
    + destruct Hstep as [Hsame|[t Hpop]].
      * exists consumed. split; [congruence | cbn; lia].
      * exists (t :: consumed). split; [|cbn; lia].
        rewrite Hpop, Hq. reflexivity.
Qed.

(** Over any run of ticks that all return, from a tempo mapper built from
    [segs]: the queue is what is left of [segs] once some segments in
    front have been consumed, at most one per tick however long the tick,
    and after at least one tick it is not empty.  In any arithmetic. *)
Theorem ticks_consume_at_most_one_segment_each {num : Type} `{Number num}
    (segs : list (notation.timing.timing num)) (dts : list num)
    (s' : tempo.tempo num) :
  trace.advances dts (scenario.tempo_of segs) = Returned tt s' ->
  (dts <> [] -> tempo.timings s' <> []) /\
  exists consumed,
    segs = consumed ++ tempo.timings s' /\
    (List.length consumed <= List.length dts)%nat.
Proof.
  intro E. apply advances_pop_at_most_one_each in E.
  rewrite tempo_of_state in E. exact E.
Qed.

Lemma ticks_consume_at_most_one_segment_each_witness :
  (instance.two_ticks <> [] ->
   tempo.timings instance.two_segments_ticked <> []) /\
  exists consumed,
    example.segments_AB
      = consumed ++ tempo.timings instance.two_segments_ticked /\
    (List.length consumed <= List.length instance.two_ticks)%nat.
Proof.
  apply (@ticks_consume_at_most_one_segment_each Q _ example.segments_AB
           instance.two_ticks instance.two_segments_ticked).
  vm_compute. reflexivity.
Defined.

(** ** [tempo::add_timing] *)

Lemma walk_app {num : Type} `{Number num}
    (l : list (notation.timing.timing num)) :
  forall (l' : list (notation.timing.timing num)) (t beat r : num),
    tempo.walk l t beat = inl r ->
    tempo.walk (l ++ l') t beat = inl r.
Proof.
  induction l as [|seg l IH]; intros l' t beat r; cbn; [discriminate|].
  destruct (leb beat _); trivial. apply IH.
Qed.

(** [add_timing] leaves both cursors alone and puts the segment behind
    the ones queued; every beat that [beat_to_time] resolved before is
    resolved to the same time afterwards. *)
Theorem add_timing_keeps_resolved_beats {num : Type} `{Number num}
    (seg : notation.timing.timing num) (s : tempo.tempo num) (beat r : num) :
  tempo.beat_to_time beat s = Returned r s ->
  tempo.now (tempo.add_timing seg s) = tempo.now s /\
  tempo.global (tempo.add_timing seg s) = tempo.global s /\
  tempo.timings (tempo.add_timing seg s) = tempo.timings s ++ [seg] /\
  tempo.beat_to_time beat (tempo.add_timing seg s)
    = Returned r (tempo.add_timing seg s).
Proof.
  intro E. split; [reflexivity|]. split; [reflexivity|].
  split; [reflexivity|].
  revert E. unfold tempo.beat_to_time, throw, ret. cbn.
  destruct (ltb beat _); [discriminate|].
  destruct (tempo.walk (tempo.timings s) _ _) as [x|] eqn:W;
    [|discriminate].
  intros [= <-]. erewrite walk_app; [reflexivity | exact W].
Qed.

Lemma add_timing_keeps_resolved_beats_witness :
  let s := example.one_segment in
  let B := notation.timing.constant 4 1 in
  tempo.now (tempo.add_timing B s) = tempo.now s /\
  tempo.global (tempo.add_timing B s) = tempo.global s /\
  tempo.timings (tempo.add_timing B s) = tempo.timings s ++ [B] /\
  tempo.beat_to_time 3 (tempo.add_timing B s)
    = Returned (0 + 3 * 2 / 4) (tempo.add_timing B s).
Proof.
  apply (@add_timing_keeps_resolved_beats Q _
           (notation.timing.constant 4 1) example.one_segment 3
           (0 + 3 * 2 / 4)).
  vm_compute. reflexivity.
Defined.

(** ** The constructor of the player *)

Lemma beat_to_time_outcome {num : Type} `{Number num} (beat : num)
    (s : tempo.tempo num) :
  (exists r, tempo.beat_to_time beat s = Returned r s) \/
  (exists b reason,
     tempo.beat_to_time beat s = Thrown (invalid_beat b reason) s).
Proof.
  unfold tempo.beat_to_time, throw, ret.
  destruct (ltb beat _); [right; do 2 eexists; reflexivity|].
  destruct (tempo.walk _ _ _); [left | right; eexists]; eexists; reflexivity.
Qed.

Lemma push_notes_unresolvable {num : Type} `{Number num}
    (ns : list (notation.note num)) :
  forall p : player.player num,
    forallb (spec.resolvable (player.now p)) ns = false ->
    exists b reason p',
      player.push_notes ns p = Thrown (invalid_beat b reason) p' /\
      player.now p' = player.now p /\
      player.active p' = player.active p /\
      player.sound_ p' = player.sound_ p.
Proof.
  induction ns as [|n ns IH]; intros [nw r a sd]; cbn [forallb];
    [discriminate|].
  intro Hall. cbn [player.push_notes].
  unfold bind at 1, player.on_now at 1. cbn [player.now].
  cbn [player.now] in Hall. unfold spec.resolvable at 1 in Hall.
  destruct (beat_to_time_outcome
              (notation.beats.start (notation.duration n)) nw)
    as [[r1 E1]|(b & reason & E1)]; rewrite E1 in Hall |- *.
  - unfold bind at 1, player.on_now at 1. cbn [player.now].
    destruct (beat_to_time_outcome
                (add (notation.beats.start (notation.duration n))
                     (notation.beats.duration (notation.duration n))) nw)
      as [[r2 E2]|(b & reason & E2)]; rewrite E2 in Hall |- *.
    + cbn in Hall. unfold bind at 1, modify. cbn.
      destruct (IH (player.mk_player nw
                      (player.push (instruction.new n r1 r2) r) a sd) Hall)
        as (b & reason & p' & E & Hp').
      exists b, reason, p'. now split.
    + exists b, reason, (player.mk_player nw r a sd). cbn. now repeat split.
  - exists b, reason, (player.mk_player nw r a sd). cbn. now repeat split.
Qed.

(** The constructor queues the segments of the song in order behind zero
    cursors.  If [beat_to_time] resolves the start and the end of every
    note on that tempo mapper, it returns a player whose roll holds one
    instruction per note, with an empty active list and the silent sample;
    otherwise it throws [invalid_beat]. *)
Theorem constructor_outcomes {num : Type} `{Number num}
    (song : notation.song num) :
  let s :=
    tempo.mk_tempo (notation.timings song)
      (timing.mk_time zero zero zero zero)
      (timing.mk_time zero zero zero zero) in
  if forallb (spec.resolvable s) (notation.notes song)
  then
    player.new song =
      Returned tt
        (player.mk_player s (map (spec.resolved s) (notation.notes song)) []
           (sample.mk_sample zero zero))
  else
    exists b reason p',
      player.new song = Thrown (invalid_beat b reason) p' /\
      player.now p' = s /\
      player.active p' = [] /\
      player.sound_ p' = sample.mk_sample zero zero.
Proof.
  cbv zeta. rewrite <- tempo_of_state.
  destruct (forallb _ _) eqn:Hall.
  - now apply new_resolvable.
  - unfold player.new, bind, modify.
    apply (push_notes_unresolvable (notation.notes song)
             (player.mk_player (scenario.tempo_of (notation.timings song))
                [] [] (sample.mk_sample zero zero)) Hall).
Qed.

(** ** The period of an instruction *)

Lemma beat_to_time_ordered (s s1 s2 : tempo.tempo Q) (b1 b2 r1 r2 : Q) :
  Forall spec.beat_to_time_ok (tempo.timings s) ->
  0 <= timing.beat (tempo.now s) ->
  b1 <= b2 ->
  tempo.beat_to_time b1 s = Returned r1 s1 ->
  tempo.beat_to_time b2 s = Returned r2 s2 ->
  timing.beat (tempo.global s) <= b1 /\ r1 <= r2.
Proof.
  intros Hall Hnow H12. unfold tempo.beat_to_time, throw, ret.
  destruct (ltb b1 _) eqn:Hg; [discriminate|].
  destruct (ltb b2 _); [discriminate|].
  apply ltb_Q_false in Hg.
  destruct (tempo.walk _ _ (b1 - _)%num) as [x1|] eqn:E1; [|discriminate].
  destruct (tempo.walk _ _ (b2 - _)%num) as [x2|] eqn:E2; [|discriminate].
  intros [= <- _] [= <- _]. q_ops. split; trivial.
  eapply (walk_monotone Hall); [| |exact E1|exact E2]; lra.
Qed.

(** When the constructor returns on a song whose segments have
    [beat_to_time] increasing on [[0, duration]] and exact at both ends
    and whose notes have non-negative durations, every instruction on the
    roll starts at a beat [>= 0], and its period is ordered in beats and in
    seconds. *)
Theorem built_periods_ordered (song : notation.song Q)
    (p : player.player Q) :
  Forall spec.beat_to_time_ok (notation.timings song) ->
  Forall (fun n => 0 <= notation.beats.duration (notation.duration n))
    (notation.notes song) ->
  player.new song = Returned tt p ->
  Forall (fun i =>
            0 <= player.start_beat i /\
            player.start_beat i <= player.end_beat i /\
            timing.t (timing.start (instruction.bounds i))
              <= timing.t (timing.end_ (instruction.bounds i)))
    (player.roll p).
Proof.
  intros Hsegs Hnotes E. apply new_returned in E. cbv zeta in E.
  destruct E as [-> Hall]. cbn [player.roll].
  rewrite forallb_forall in Hall. rewrite Forall_forall in Hnotes |- *.
  intros i Hi. apply in_map_iff in Hi. destruct Hi as (n & <- & Hn).
  specialize (Hall n Hn). specialize (Hnotes n Hn).
  unfold spec.resolvable in Hall. apply andb_true_iff in Hall.
  set (s := scenario.tempo_of (notation.timings song)) in *.
  destruct Hall as [R1 R2].
  destruct (tempo.beat_to_time (notation.beats.start (notation.duration n)) s)
    as [r1 s1| | |] eqn:E1; try discriminate.
  destruct (tempo.beat_to_time
              (add (notation.beats.start (notation.duration n))
                   (notation.beats.duration (notation.duration n))) s)
    as [r2 s2| | |] eqn:E2; try discriminate.
  assert (Hs : s = tempo.mk_tempo (notation.timings song)
                     (timing.mk_time 0 0 0 0) (timing.mk_time 0 0 0 0))
    by (unfold s; exact (tempo_of_state (notation.timings song))).
  destruct (@beat_to_time_ordered s s1 s2
              (notation.beats.start (notation.duration n))
              (notation.beats.start (notation.duration n)
               + notation.beats.duration (notation.duration n)) r1 r2)
    as [Hg Hr]; trivial.
  - now rewrite Hs.
  - rewrite Hs. cbn. lra.
  - q_ops. lra.
  - rewrite Hs in Hg. cbn in Hg.
    unfold spec.resolved, player.start_beat, player.end_beat.
    rewrite E1, E2. cbn. q_ops. repeat split; trivial; lra.
Qed.

Lemma built_periods_ordered_witness :
  Forall (fun i =>
            0 <= player.start_beat i /\
            player.start_beat i <= player.end_beat i /\
            timing.t (timing.start (instruction.bounds i))
              <= timing.t (timing.end_ (instruction.bounds i)))
    (player.roll
       (player.mk_player example.two_segments
          (map (spec.resolved example.two_segments) example.two_notes) []
          (sample.mk_sample 0 0))).
Proof.
  apply (@built_periods_ordered
           (notation.mk_song example.segments_AB example.two_notes)).
  - apply Forall_cons; [apply constant_beat_to_time_ok; reflexivity|].
    apply Forall_cons; [apply constant_beat_to_time_ok; reflexivity|].
    apply Forall_nil.
  - apply Forall_cons; [vm_compute; discriminate|].
    apply Forall_cons; [vm_compute; discriminate|].
    apply Forall_nil.
  - vm_compute. reflexivity.
Defined.

(** ** [player::advance] and the tempo mapper *)

Lemma player_advance_unfold {num : Type} `{Number num} (dt : num)
    (p : player.player num) :
  leb zero dt = true ->
  player.advance dt p =
    match tempo.advance dt (player.now p) with
    | Returned _ s' =>
        Returned tt
          (player.compute_sound (tempo.global s')
             (player.retire (tempo.global s')
                (player.promote (tempo.global s')
                   (player.mk_player s' (player.roll p) (player.active p)
                      (player.sound_ p)))))
    | Thrown e s' =>
        Thrown e
          (player.mk_player s' (player.roll p) (player.active p)
             (player.sound_ p))
    | Aborted msg => Aborted msg
    | Undefined what => Undefined what
    end.
Proof.
  intro Hdt.
  unfold player.advance, bind, assert, player.on_now, tempo.get, ret, modify.
  rewrite Hdt.
  destruct (tempo.advance dt (player.now p)) as [[] s'| | |]; reflexivity.
Qed.

(** [player::advance] fails as [tempo::advance] on its tempo mapper does:
    with a negative [dt] it stops on its own assertion; where the tempo
    mapper reads the front of an empty list so does the player; where the
    tempo mapper throws, the player throws the same exception and keeps
    its roll, its active list and its last sample, with the tempo mapper
    as the failed call left it; and where the tempo mapper returns, the
    player returns with that tempo state. *)
Theorem player_advance_follows_tempo {num : Type} `{Number num} (dt : num)
    (p : player.player num) :
  match tempo.advance dt (player.now p) with
  | Returned _ s' =>
      exists p', player.advance dt p = Returned tt p' /\ player.now p' = s'
  | Thrown e s' =>
      player.advance dt p =
        Thrown e
          (player.mk_player s' (player.roll p) (player.active p)
             (player.sound_ p))
  | Aborted _ =>
      leb zero dt = false /\
      player.advance dt p = Aborted "Not meant to go backwards!"
  | Undefined what => player.advance dt p = Undefined what
  end.
Proof.
  destruct (leb zero dt) eqn:Hdt.
  - rewrite (@player_advance_unfold num _ dt p Hdt).
    destruct (tempo.advance dt (player.now p)) as [[] s'|e s'|msg|what] eqn:E;
      trivial.
    + eexists. split; [reflexivity|]. cbn. now rewrite promote_now.
    + exfalso. revert E. unfold tempo.advance, bind, assert. rewrite Hdt.
      clear Hdt.
      destruct (tempo.timings _) as [|t [|t' rest]]; try discriminate;
        destruct (leb _ _); discriminate.
  - unfold player.advance, tempo.advance, bind, assert. rewrite Hdt.
    now split.
Qed.

(** ** Instructions are moved, never made *)

Lemma filter_split {A : Type} (f : A -> bool) (l : list A) :
  Permutation l (filter f l ++ filter (fun x => negb (f x)) l).
Proof.
  induction l as [|x l IH]; cbn; [constructor|].
  destruct (f x); cbn.
  - now constructor.
  - now apply Permutation_cons_app.
Qed.

(** When [advance] returns, with [g] the global beat it reached, the
    instructions on the roll and in the active list before the call are
    those on the roll and in the active list after it together with the
    retired ones; every retired instruction ends before [g], every active
    one ends at [g] or later, and the roll has lost at most one
    instruction. *)
Theorem advance_conserves_instructions (dt : Q) (p p' : player.player Q) :
  player.advance dt p = Returned tt p' ->
  let g := timing.beat (tempo.global (player.now p')) in
  exists retired,
    Permutation (player.roll p ++ player.active p)
      (player.roll p' ++ player.active p' ++ retired) /\
    Forall (fun i => player.end_beat i < g) retired /\
    Forall (fun i => g <= player.end_beat i) (player.active p') /\
    (List.length (player.roll p) <= S (List.length (player.roll p')))%nat.
Proof.
  intros E g.
  apply player_advance_returned in E. destruct E as (s' & _ & E).
  cbv zeta in E. subst p'. subst g.
  cbn [player.compute_sound player.now player.roll player.active].
  cbn [player.retire player.now player.roll player.active].
  rewrite promote_now. cbn [player.now].
  set (t := tempo.global s'). rewrite erase_ended_filter.
  set (q := player.promote t
              (player.mk_player s' (player.roll p) (player.active p)
                 (player.sound_ p))).
  exists (filter (fun i => negb (spec.stays (timing.beat t) i))
            (player.active q)).
  assert (Hq : Permutation (player.roll p ++ player.active p)
                 (player.roll q ++ player.active q) /\
               (List.length (player.roll p) <= S (List.length (player.roll q)))%nat).
  { unfold q, player.promote, player.top, player.pop. cbn [player.roll].
    destruct (player.take_top (player.roll p)) as [[top popped]|] eqn:T;
      cbn [option_map fst];
      [|cbn [player.roll player.active]; split; [reflexivity | lia]].
    apply take_top_some in T. destruct T as [Hperm _].
    destruct (leb (player.start_beat top) (timing.beat t));
      cbn [player.roll player.active].
    - split.
      + rewrite Hperm. cbn [app]. rewrite app_assoc.
        apply Permutation_cons_append.
      + apply Permutation_length in Hperm. cbn in Hperm. lia.
    - split; [reflexivity | lia]. }
  destruct Hq as [Hperm Hlen]. split; [|split; [|split]]; trivial.
  - rewrite Hperm. apply Permutation_app_head. apply filter_split.
  - apply Forall_forall. intros i Hi. apply filter_In in Hi.
    destruct Hi as [_ Hi]. apply negb_true_iff in Hi.
    now apply stays_false_iff.
  - apply Forall_forall. intros i Hi. apply filter_In in Hi.
    destruct Hi as [_ Hi]. unfold spec.stays in Hi.
    apply negb_true_iff in Hi. now apply ltb_Q_false.
Qed.

Lemma advance_conserves_instructions_witness :
  let p := example.after_ticks example.chord 1 in
  let p' := example.after_ticks example.chord 2 in
  let g := timing.beat (tempo.global (player.now p')) in
  exists retired,
    Permutation (player.roll p ++ player.active p)
      (player.roll p' ++ player.active p' ++ retired) /\
    Forall (fun i => player.end_beat i < g) retired /\
    Forall (fun i => g <= player.end_beat i) (player.active p') /\
    (List.length (player.roll p) <= S (List.length (player.roll p')))%nat.
Proof.
  apply (@advance_conserves_instructions (1 # 10)
           (example.after_ticks example.chord 1)
           (example.after_ticks example.chord 2)).
  vm_compute. reflexivity.
Defined.

(** ** What the mixer stores *)

(** When [advance] returns and leaves no instruction active, [sound()]
    reads the silent frame; in exact arithmetic and in [double]. *)
Theorem silent_without_active :
  (forall (dt : Q) (p p' : player.player Q),
     player.advance dt p = Returned tt p' ->
     player.active p' = [] ->
     player.sound p' = Returned (sample.mk_sample 0 0) p') /\
  (forall (dt : float) (p p' : player.player float),
     player.advance dt p = Returned tt p' ->
     player.active p' = [] ->
     player.sound p' = Returned (sample.mk_sample 0%float 0%float) p').
Proof.
  split; intros dt p p' E Hactive; unfold player.sound, ret;
    rewrite (player_advance_sound _ _ E), Hactive; reflexivity.
Qed.

Lemma silent_without_active_witness :
  player.sound (example.after_ticks (scenario.empty_song 4 2) 1) =
    Returned (sample.mk_sample 0 0)
      (example.after_ticks (scenario.empty_song 4 2) 1).
Proof.
  apply (proj1 silent_without_active (1 # 10)
           (example.after_ticks (scenario.empty_song 4 2) 0)
           (example.after_ticks (scenario.empty_song 4 2) 1)).
  - vm_compute. reflexivity.
  - vm_compute. reflexivity.
Defined.

Lemma mix_fold_sums (t : timing.time Q)
    (l : list (instruction.instruction Q)) :
  forall (s : sample.sample Q) (n : Q),
    sample.left (fst (fold_left (player.mix_step t) l (s, n)))
      == sample.left s + measure.summed_left t l /\
    sample.right (fst (fold_left (player.mix_step t) l (s, n)))
      == sample.right s + measure.summed_right t l /\
    snd (fold_left (player.mix_step t) l (s, n))
      == n + measure.loudness t l.
Proof.
  unfold measure.summed_left, measure.summed_right, measure.loudness.
  induction l as [|i l IH]; intros s n; cbn [fold_left fold_right].
  - cbn [fst snd]. split; [|split]; ring.
  - destruct (IH (sample.plus s (measure.contribution t i))
                 (n + measure.peak t i)) as (Hl & Hr & Hn).
    change (player.mix_step t (s, n) i)
      with (sample.plus s (measure.contribution t i),
            n + measure.peak t i).
    rewrite Hl, Hr, Hn. unfold sample.plus.
    cbn [sample.left sample.right]. q_ops.
    split; [|split]; ring.
Qed.

(** When [advance] returns, the sample stored is the sum of the samples of
    the active instructions divided by the sum of their peak volumes
    ([max(vol.right, vol.left)]), and left undivided when that sum is at
    most 1. *)
Theorem mixer_normalises (dt : Q) (p p' : player.player Q) :
  player.advance dt p = Returned tt p' ->
  let t := tempo.global (player.now p') in
  let l := player.active p' in
  (measure.loudness t l <= 1 ->
     sample.left (player.sound_ p') == measure.summed_left t l /\
     sample.right (player.sound_ p') == measure.summed_right t l) /\
  (1 <= measure.loudness t l ->
     sample.left (player.sound_ p')
       == measure.summed_left t l / measure.loudness t l /\
     sample.right (player.sound_ p')
       == measure.summed_right t l / measure.loudness t l).
Proof.
  intros E t l. rewrite (player_advance_sound _ _ E). fold t l.
  unfold player.mix.
  destruct (mix_fold_sums t l (sample.mk_sample 0 0) 0) as (Hl & Hr & Hn).
  change (@zero Q Number_Q) with 0 in *. change (@one Q Number_Q) with 1 in *.
  destruct (fold_left (player.mix_step t) l (sample.mk_sample 0 0, 0))
    as [s n].
  cbn in Hl, Hr, Hn |- *. rewrite Qplus_0_l in Hl, Hr, Hn.
  change (@div Q Number_Q) with Qdiv.
  split; intro Hloud.
  - assert (Hm : max n 1 == 1)
      by (destruct (max_Q_cases n 1) as [[? ->]|[? ->]]; lra).
    rewrite Hm, Hl, Hr. split; field.
  - assert (Hm : max n 1 == measure.loudness t l)
      by (destruct (max_Q_cases n 1) as [[? ->]|[? ->]]; lra).
    rewrite Hm, Hl, Hr. split; reflexivity.
Qed.

Lemma mixer_normalises_witness :
  let p' := example.after_ticks example.chord 2 in
  let t := tempo.global (player.now p') in
  let l := player.active p' in
  (measure.loudness t l <= 1 ->
     sample.left (player.sound_ p') == measure.summed_left t l /\
     sample.right (player.sound_ p') == measure.summed_right t l) /\
  (1 <= measure.loudness t l ->
     sample.left (player.sound_ p')
       == measure.summed_left t l / measure.loudness t l /\
     sample.right (player.sound_ p')
       == measure.summed_right t l / measure.loudness t l).
Proof.
  apply (@mixer_normalises (1 # 10)
           (example.after_ticks example.chord 1)
           (example.after_ticks example.chord 2)).
  vm_compute. reflexivity.
Defined.

(** ** The order of the piano roll *)

(** [ptrcmp] compares start beats only and is a strict weak ordering, as
    [std::priority_queue] requires: irreflexive, transitive, and with a
    transitive incomparability. *)
Theorem ptrcmp_strict_weak_order :
  (forall a b : instruction.instruction Q,
     player.ptrcmp a b = true <-> player.start_beat b < player.start_beat a)
  /\
  (forall a : instruction.instruction Q, player.ptrcmp a a = false) /\
  (forall a b c : instruction.instruction Q,
     player.ptrcmp a b = true -> player.ptrcmp b c = true ->
     player.ptrcmp a c = true) /\
  (forall a b c : instruction.instruction Q,
     player.ptrcmp a b = false -> player.ptrcmp b a = false ->
     player.ptrcmp b c = false -> player.ptrcmp c b = false ->
     player.ptrcmp a c = false /\ player.ptrcmp c a = false).
Proof.
  unfold player.ptrcmp. split; [intros a b; apply ltb_Q|].
  split; [intro a; apply ltb_Q_false; lra|].
  split.
  - intros a b c Hab Hbc. apply ltb_Q in Hab, Hbc. apply ltb_Q. lra.
  - intros a b c Hab Hba Hbc Hcb.
    apply ltb_Q_false in Hab, Hba, Hbc, Hcb.
    split; apply ltb_Q_false; lra.
Qed.

Lemma drain_in_order (n : nat) :
  forall r : list (instruction.instruction Q),
    List.length r = n ->
    Permutation (trace.drain n r) r /\
    StronglySorted
      (fun a b => player.start_beat a <= player.start_beat b)
      (trace.drain n r).
Proof.
  induction n as [|n IH]; intros r Hlen.
  - destruct r; [|discriminate]. cbn. split; constructor.
  - cbn [trace.drain]. unfold player.top, player.pop.
    destruct (player.take_top r) as [[x r']|] eqn:T.
    + cbn [option_map fst]. apply take_top_some in T.
      destruct T as [Hperm Hmin].
      assert (Hlen' : List.length r' = n).
      { apply Permutation_length in Hperm. cbn in Hperm. lia. }
      destruct (IH r' Hlen') as [Hp Hs]. split.
      * rewrite Hperm. now constructor.
      * constructor; trivial.
        rewrite Forall_forall in Hmin |- *. intros y Hy. apply Hmin.
        apply Permutation_in with (l := x :: r'); [now symmetry|].
        right. apply Permutation_in with (l := trace.drain n r'); trivial.
    + apply take_top_none in T. subst r. discriminate.
Qed.

(** Taking [top()] and [pop()] until the roll is empty hands out every
    pending instruction once, in non-decreasing order of start beat. *)
Theorem roll_hands_out_in_start_order
    (r : list (instruction.instruction Q)) :
  Permutation (trace.drain (List.length r) r) r /\
  StronglySorted
    (fun a b => player.start_beat a <= player.start_beat b)
    (trace.drain (List.length r) r).
Proof. now apply drain_in_order. Qed.
